(** * conntrack: the admission controller, embedded and verified

    Shallow embedding of [conntrack.Instance] (transactions over the
    entries table, the capacity variables and the four waiter registries)
    and of the [Wait] protocol, and of the index of [filecache.Cache],
    followed by their properties. *)

From stdpp Require Import gmap strings list fin_maps.
From Stdlib Require Import ZArith Sorted.

Local Open Scope Z_scope.

(** ** Data model *)

(** [type Entry struct { Protocol, LocalAddr, RemoteAddr string }]: a map
    key with structural equality. *)
Record Entry := mkEntry {
  Protocol : string;
  LocalAddr : string;
  RemoteAddr : string;
}.

#[global] Instance Entry_eq_dec : EqDecision Entry.
Proof. solve_decision. Defined.

#[global] Instance Entry_countable : Countable Entry.
Proof.
  refine (inj_countable'
            (fun x => (Protocol x, LocalAddr x, RemoteAddr x))
            (fun t => match t with (a, b, c) => mkEntry a b c end) _).
  by intros [].
Defined.

(** [type reason = string] and [type priority int]. Priorities are only
    compared, never computed with, so the machine integer is a [Z]. *)
Definition reason := string.
Definition priority := Z.

(** [*EntryHandle]. Handles live in sets keyed by pointer, so the record
    carries the address of the allocation ([eh_addr]) next to the fields
    [Wait] fills in when it builds the handle. *)
Record EntryHandle := mkEntryHandle {
  eh_addr : positive;
  eh_reason : reason;
  eh_e : Entry;
  eh_priority : priority;
  eh_created : Z;
}.

#[global] Instance EntryHandle_eq_dec : EqDecision EntryHandle.
Proof. solve_decision. Defined.

#[global] Instance EntryHandle_countable : Countable EntryHandle.
Proof.
  refine (inj_countable'
            (fun h => (eh_addr h, eh_reason h, eh_e h, eh_priority h, eh_created h))
            (fun t => match t with (a, r, x, p, c) => mkEntryHandle a r x p c end) _).
  by intros [].
Defined.

(** [stmutil.Settish] of handles and [stmutil.Mappish] from keys to such
    sets. *)
Abbreviation entryHandleSet := (gset EntryHandle).

(** [type Instance struct]: one field per [*stm.Var], read and written
    only inside transactions. [Timeout] is a plain field. *)
Record Instance := mkInstance {
  maxEntries : Z;
  noMaxEntries : bool;
  Timeout : Entry -> Z;
  entries : gmap Entry entryHandleSet;
  waitersByPriority : gmap priority entryHandleSet;
  waitersByReason : gmap reason entryHandleSet;
  waitersByEntry : gmap Entry entryHandleSet;
  waiters : entryHandleSet;
}.

Definition set_maxEntries (v : Z) (i : Instance) : Instance :=
  mkInstance v (noMaxEntries i) (Timeout i) (entries i) (waitersByPriority i)
             (waitersByReason i) (waitersByEntry i) (waiters i).
Definition set_noMaxEntries (v : bool) (i : Instance) : Instance :=
  mkInstance (maxEntries i) v (Timeout i) (entries i) (waitersByPriority i)
             (waitersByReason i) (waitersByEntry i) (waiters i).
Definition set_entries (v : gmap Entry entryHandleSet) (i : Instance) : Instance :=
  mkInstance (maxEntries i) (noMaxEntries i) (Timeout i) v (waitersByPriority i)
             (waitersByReason i) (waitersByEntry i) (waiters i).
Definition set_waitersByPriority (v : gmap priority entryHandleSet) (i : Instance) : Instance :=
  mkInstance (maxEntries i) (noMaxEntries i) (Timeout i) (entries i) v
             (waitersByReason i) (waitersByEntry i) (waiters i).
Definition set_waitersByReason (v : gmap reason entryHandleSet) (i : Instance) : Instance :=
  mkInstance (maxEntries i) (noMaxEntries i) (Timeout i) (entries i) (waitersByPriority i)
             v (waitersByEntry i) (waiters i).
Definition set_waitersByEntry (v : gmap Entry entryHandleSet) (i : Instance) : Instance :=
  mkInstance (maxEntries i) (noMaxEntries i) (Timeout i) (entries i) (waitersByPriority i)
             (waitersByReason i) v (waiters i).
Definition set_waiters (v : entryHandleSet) (i : Instance) : Instance :=
  mkInstance (maxEntries i) (noMaxEntries i) (Timeout i) (entries i) (waitersByPriority i)
             (waitersByReason i) (waitersByEntry i) v.

(** ** Transactions

    The body of [stm.Atomically] runs on a snapshot of the variables and
    either falls off its end, leaves through [tx.Return], blocks in
    [tx.Retry], or panics. [R] is the type handed to [tx.Return]. *)
Inductive TxResult (R A : Type) : Type :=
| Next (a : A) (i : Instance)
| Returned (r : R) (i : Instance)
| Retry
| Panic (msg : string).
Arguments Next {R A} a i.
Arguments Returned {R A} r i.
Arguments Retry {R A}.
Arguments Panic {R A} msg.

Definition Tx (R A : Type) : Type := Instance -> TxResult R A.

Definition tx_pure {R A} (a : A) : Tx R A := fun i => Next a i.

Definition tx_bind {R A B} (t : Tx R A) (k : A -> Tx R B) : Tx R B :=
  fun i =>
    match t i with
    | Next a i' => k a i'
    | Returned r i' => Returned r i'
    | Retry => Retry
    | Panic msg => Panic msg
    end.

Notation "'let*' x ':=' t 'in' k" := (tx_bind t (fun x => k))
  (at level 10, x name, t at level 100, k at level 200, only parsing).
Notation "t '>>' k" := (tx_bind t (fun _ => k))
  (at level 100, k at level 200, right associativity, only parsing).

(** [tx.Get(v)] and [tx.Set(v, x)], one variable per record field. *)
Definition tx_Get {R A} (var : Instance -> A) : Tx R A := fun i => Next (var i) i.
Definition tx_Set {R A} (upd : A -> Instance -> Instance) (x : A) : Tx R unit :=
  fun i => Next tt (upd x i).
Definition tx_Return {R A} (r : R) : Tx R A := fun i => Returned r i.
Definition tx_Retry {R A} : Tx R A := fun _ => Retry.
Definition tx_panic {R A} (msg : string) : Tx R A := fun _ => Panic msg.

(** What [stm.Atomically] hands back: the writes are committed together
    with the value given to [tx.Return] (none when the body ends), or the
    transaction stays blocked, or the panic propagates. *)
Inductive Outcome (R : Type) : Type :=
| Committed (r : option R) (i : Instance)
| Blocked
| Panicked (msg : string).
Arguments Committed {R} r i.
Arguments Blocked {R}.
Arguments Panicked {R} msg.

Definition Atomically {R} (body : Tx R unit) (i : Instance) : Outcome R :=
  match body i with
  | Next _ i' => Committed None i'
  | Returned r i' => Committed (Some r) i'
  | Retry => Blocked
  | Panic msg => Panicked msg
  end.

(** State after a transaction that can neither block nor panic. *)
Definition commit {R} (body : Tx R unit) (i : Instance) : Instance :=
  match Atomically body i with
  | Committed _ i' => i'
  | _ => i
  end.

(** ** Map-to-set helpers, generic in the key as in the source *)

Section MapToSet.
Context {K : Type} `{Countable K}.

(** [func deleteFromMapToSet(m, mapKey, setElem) (Mappish, bool)] *)
Definition deleteFromMapToSet (m : gmap K entryHandleSet) (mapKey : K)
    (setElem : EntryHandle) : gmap K entryHandleSet * bool :=
  match m !! mapKey with
  | None => (m, true)
  | Some s0 =>
      let s := s0 ∖ {[setElem]} in
      if Z.of_nat (size s) =? 0 then (delete mapKey m, true)
      else (<[mapKey := s]> m, false)
  end.

(** [func addToMapToSet(m, mapKey, setElem) Mappish] *)
Definition addToMapToSet (m : gmap K entryHandleSet) (mapKey : K)
    (setElem : EntryHandle) : gmap K entryHandleSet :=
  let s := match m !! mapKey with
           | Some s0 => s0 ∪ {[setElem]}
           | None => (∅ : entryHandleSet) ∪ {[setElem]}
           end in
  <[mapKey := s]> m.
End MapToSet.

(** [stmutil.GetLeft] *)
Definition GetLeft {A B} (p : A * B) : A := fst p.

(** ** The sorted map of waiters by priority

    [stmutil.NewSortedMap(less)] is a map whose iteration follows [less];
    [NewInstance] passes [l.(priority) > r.(priority)]. The contents are a
    [gmap]; [Iter] lists the keys in comparator order, and [First] is
    [iter.First]: the first value the iteration yields, if any. *)
Definition priorityLess (l r : priority) : bool := bool_decide (l > r).

Fixpoint insertBy {A} (less : A -> A -> bool) (k : A) (l : list A) : list A :=
  match l with
  | [] => [k]
  | k' :: l' => if less k k' then k :: l else k' :: insertBy less k l'
  end.

Definition sortBy {A} (less : A -> A -> bool) (l : list A) : list A :=
  foldr (insertBy less) [] l.

Definition Iter {V} (m : gmap priority V) : list priority :=
  sortBy priorityLess (elements (dom m)).

Definition First {A} (it : list A) : option A := head it.

(** ** Operations of [Instance] *)

(** [func NewInstance() *Instance] *)
Definition NewInstance : Instance :=
  {| maxEntries := Z.shiftl 1 14;
     noMaxEntries := false;
     Timeout := fun _ => 30 * 1000000000;
     entries := ∅;
     waitersByPriority := ∅;
     waitersByReason := ∅;
     waitersByEntry := ∅;
     waiters := ∅ |}.

(** [func (i *Instance) SetNoMaxEntries()]: [stm.AtomicSet] is a
    transaction with one write. *)
Definition SetNoMaxEntries (i : Instance) : Instance :=
  commit (R := unit) (tx_Set set_noMaxEntries true) i.

(** [func (i *Instance) SetMaxEntries(max int)] *)
Definition SetMaxEntries (max : Z) (i : Instance) : Instance :=
  commit (R := unit)
    (tx_Set set_noMaxEntries false >>
     tx_Set set_maxEntries max) i.

(** [func (i *Instance) remove(eh *EntryHandle)] *)
Definition remove (eh : EntryHandle) (i : Instance) : Instance :=
  commit (R := unit)
    (let* m := tx_Get entries in
     let es := fst (deleteFromMapToSet m (eh_e eh) eh) in
     tx_Set set_entries es) i.

(** [func (i *Instance) deleteWaiter(eh *EntryHandle, tx *stm.Tx)] *)
Definition deleteWaiter {R} (eh : EntryHandle) : Tx R unit :=
  let* ws := tx_Get waiters in
  tx_Set set_waiters (ws ∖ {[eh]}) >>
  let* byP := tx_Get waitersByPriority in
  tx_Set set_waitersByPriority
    (GetLeft (deleteFromMapToSet byP (eh_priority eh) eh)) >>
  let* byR := tx_Get waitersByReason in
  tx_Set set_waitersByReason
    (GetLeft (deleteFromMapToSet byR (eh_reason eh) eh)) >>
  let* byE := tx_Get waitersByEntry in
  tx_Set set_waitersByEntry
    (GetLeft (deleteFromMapToSet byE (eh_e eh) eh)).

(** [func (i *Instance) addWaiter(eh *EntryHandle)] *)
Definition addWaiter (eh : EntryHandle) (i : Instance) : Instance :=
  commit (R := unit)
    (let* byP := tx_Get waitersByPriority in
     tx_Set set_waitersByPriority (addToMapToSet byP (eh_priority eh) eh) >>
     let* byR := tx_Get waitersByReason in
     tx_Set set_waitersByReason (addToMapToSet byR (eh_reason eh) eh) >>
     let* byE := tx_Get waitersByEntry in
     tx_Set set_waitersByEntry (addToMapToSet byE (eh_e eh) eh) >>
     let* ws := tx_Get waiters in
     tx_Set set_waiters (ws ∪ {[eh]})) i.

(** [haveRoom := noMaxEntries || es.Len() < maxEntries] *)
Definition haveRoom (noMax : bool) (es : gmap Entry entryHandleSet) (max : Z) : bool :=
  noMax || (Z.of_nat (size es) <? max).

(** The three transactions of [Wait], in program order: [Wait] builds the
    handle and registers it ([addWaiter]); then runs the admission
    transaction below, which blocks and is re-run until it returns; then
    deregisters the handle ([waitCleanup]). [ctxDone] is the value of the
    variable of [stmutil.ContextDoneVar(ctx)] in the snapshot;
    [tx.Return] leaves the transaction at once. *)
Definition waitTx (eh : EntryHandle) (ctxDone : bool) : Tx bool unit :=
  let e := eh_e eh in
  let p := eh_priority eh in
  let* es := tx_Get entries in
  match es !! e with
  | Some s => tx_Set set_entries (<[e := s ∪ {[eh]}]> es) >> tx_Return true
  | None => tx_pure tt
  end >>
  let* noMax := tx_Get noMaxEntries in
  let* max := tx_Get maxEntries in
  let haveRoom := haveRoom noMax es max in
  let* byP := tx_Get waitersByPriority in
  match First (Iter byP) with
  | None => tx_panic "y u no waiting"
  | Some topPrio =>
      (if haveRoom && (p =? topPrio)
       then tx_Set set_entries (addToMapToSet es e eh) >> tx_Return true
       else tx_pure tt) >>
      (if ctxDone then tx_Return false else tx_pure tt) >>
      tx_Retry
  end.

(** The deregistration transaction that ends [Wait]. *)
Definition waitCleanup (eh : EntryHandle) (i : Instance) : Instance :=
  commit (R := unit) (deleteWaiter eh) i.

Arguments SetNoMaxEntries : simpl never.
Arguments SetMaxEntries : simpl never.
Arguments remove : simpl never.
Arguments addWaiter : simpl never.
Arguments waitTx : simpl never.
Arguments waitCleanup : simpl never.

(** [if !success { eh = nil }; return] *)
Definition waitResult (eh : EntryHandle) (success : bool) : option EntryHandle :=
  if success then Some eh else None.

(** [eh = &EntryHandle{reason: reason, e: e, i: i, priority: p, created:
    time.Now()}], allocated at [addr]. *)
Definition newEntryHandle (addr : positive) (e : Entry) (r : reason) (p : priority)
    (now : Z) : EntryHandle :=
  mkEntryHandle addr r e p now.

(** [func (i *Instance) Wait(ctx, e, reason, p) (eh *EntryHandle)], run
    without any other caller in between: the handle is built and
    registered, the admission transaction runs once on the result, and if
    it returns the handle is deregistered and the result handed back. A
    blocked transaction leaves the call registered. *)
Inductive WaitOutcome : Type :=
| WaitReturns (r : option EntryHandle) (i : Instance)
| WaitBlocks (i : Instance)
| WaitPanics (msg : string).

Definition Wait (addr : positive) (now : Z) (ctxDone : bool) (e : Entry)
    (r : reason) (p : priority) (i : Instance) : WaitOutcome :=
  let eh := newEntryHandle addr e r p now in
  let i1 := addWaiter eh i in
  match Atomically (waitTx eh ctxDone) i1 with
  | Committed (Some success) i2 => WaitReturns (waitResult eh success) (waitCleanup eh i2)
  | Committed None _ => WaitPanics "interface conversion: interface {} is nil, not bool"
  | Blocked => WaitBlocks i1
  | Panicked msg => WaitPanics msg
  end.

(** [func (i *Instance) WaitDefault(ctx, e)] *)
Definition WaitDefault (addr : positive) (now : Z) (ctxDone : bool) (e : Entry)
    (i : Instance) : WaitOutcome :=
  Wait addr now ctxDone e "" 0 i.

Definition returned (o : WaitOutcome) : option (option EntryHandle) :=
  match o with WaitReturns r _ => Some r | _ => None end.

Definition stateAfter (o : WaitOutcome) : option Instance :=
  match o with WaitReturns _ i | WaitBlocks i => Some i | WaitPanics _ => None end.

(** ** The system: one instance and the [Wait] calls made on it

    Every transaction is one atomic step; callers interleave between
    steps. A call of [Wait] is identified by the handle it allocates and
    is in one of three places of the function body; a handle that was
    granted is later taken out of the entries table. *)
Inductive Pc : Type :=
| Pending                     (* registered, admission transaction not yet returned *)
| Decided (success : bool)    (* admission transaction returned [success] *)
| Finished (success : bool)   (* deregistered; [Wait] returned [waitResult eh success] *)
| Removed.                    (* granted, returned, and removed at least once *)

Record Call := mkCall {
  pc : Pc;
  call_ctxDone : bool;        (* has the context of this call completed *)
}.

#[global] Instance Pc_eq_dec : EqDecision Pc.
Proof. solve_decision. Defined.

#[global] Instance Call_eq_dec : EqDecision Call.
Proof. solve_decision. Defined.

Record System := mkSystem {
  inst : Instance;
  calls : gmap EntryHandle Call;
}.

Definition initial : System := mkSystem NewInstance ∅.

Definition set_Timeout (f : Entry -> Z) (i : Instance) : Instance :=
  mkInstance (maxEntries i) (noMaxEntries i) f (entries i) (waitersByPriority i)
             (waitersByReason i) (waitersByEntry i) (waiters i).

(** Modelled from the spec: [EntryHandle.Done], which is not among the
    source files. It marks a granted handle released and schedules, after
    [Timeout(e)], the removal of this handle from the holders of its
    entry, which is [Instance.remove]. A removal can therefore fire only
    for a handle that [Wait] has returned to its caller, once for every
    call of [Done]. *)
Definition removalScheduled (at_pc : Pc) : Prop :=
  at_pc = Finished true ∨ at_pc = Removed.

(** The steps of the system. [step_register], [step_admission] and
    [step_deregister] are the three transactions of one [Wait] call;
    [step_ctx_done] is the completion of its context; [step_remove] is a
    scheduled removal firing; the last three reconfigure the instance. *)
Inductive step : System -> System -> Prop :=
| step_register σ eh d :
    (∀ h, h ∈ dom (calls σ) → eh_addr h ≠ eh_addr eh) →
    step σ (mkSystem (addWaiter eh (inst σ))
                     (<[eh := mkCall Pending d]> (calls σ)))
| step_ctx_done σ eh c :
    calls σ !! eh = Some c →
    step σ (mkSystem (inst σ) (<[eh := mkCall (pc c) true]> (calls σ)))
| step_admission σ eh d success i' :
    calls σ !! eh = Some (mkCall Pending d) →
    Atomically (waitTx eh d) (inst σ) = Committed (Some success) i' →
    step σ (mkSystem i' (<[eh := mkCall (Decided success) d]> (calls σ)))
| step_deregister σ eh d success :
    calls σ !! eh = Some (mkCall (Decided success) d) →
    step σ (mkSystem (waitCleanup eh (inst σ))
                     (<[eh := mkCall (Finished success) d]> (calls σ)))
| step_remove σ eh d at_pc :
    calls σ !! eh = Some (mkCall at_pc d) →
    removalScheduled at_pc →
    step σ (mkSystem (remove eh (inst σ))
                     (<[eh := mkCall Removed d]> (calls σ)))
| step_SetMaxEntries σ max :
    step σ (mkSystem (SetMaxEntries max (inst σ)) (calls σ))
| step_SetNoMaxEntries σ :
    step σ (mkSystem (SetNoMaxEntries (inst σ)) (calls σ))
| step_Timeout σ f :
    step σ (mkSystem (set_Timeout f (inst σ)) (calls σ)).

Inductive reachable : System -> Prop :=
| reach_initial : reachable initial
| reach_step σ σ' : reachable σ → step σ σ' → reachable σ'.

(** ** Buckets and the registry invariants *)

(** The handles filed under [k]; no key and an empty set read the same. *)
Definition bucket {K} `{Countable K} (m : gmap K entryHandleSet) (k : K) : entryHandleSet :=
  default ∅ (m !! k).

(** Every handle sits under its own key. *)
Definition keyed {K} `{Countable K} (key : EntryHandle -> K) (m : gmap K entryHandleSet) : Prop :=
  ∀ k h, h ∈ bucket m k → key h = k.

(** No key is mapped to the empty set. *)
Definition noEmpty {K} `{Countable K} (m : gmap K entryHandleSet) : Prop :=
  ∀ k, m !! k ≠ Some ∅.

(** The flat set and the three keyed registries hold the same handles,
    each in the bucket of its own priority, reason and entry. *)
Definition registriesAgree (i : Instance) : Prop :=
  ∀ h, h ∈ waiters i ↔
       h ∈ bucket (waitersByPriority i) (eh_priority h) ∧
       h ∈ bucket (waitersByReason i) (eh_reason h) ∧
       h ∈ bucket (waitersByEntry i) (eh_e h).

(** A handle is in none of the four registries. *)
Definition deregistered (i : Instance) (h : EntryHandle) : Prop :=
  (h ∉ waiters i) ∧
  (∀ p, h ∉ bucket (waitersByPriority i) p) ∧
  (∀ r, h ∉ bucket (waitersByReason i) r) ∧
  (∀ e, h ∉ bucket (waitersByEntry i) e).

(** Entries with at least one holder. *)
Definition occupied (es : gmap Entry entryHandleSet) : gmap Entry entryHandleSet :=
  filter (fun kv => kv.2 ≠ ∅) es.

Record RegInv (i : Instance) : Prop := {
  inv_entries_keyed : keyed eh_e (entries i);
  inv_entries_noEmpty : noEmpty (entries i);
  inv_byPriority_keyed : keyed eh_priority (waitersByPriority i);
  inv_byPriority_noEmpty : noEmpty (waitersByPriority i);
  inv_byPriority_waiters :
    ∀ h, h ∈ waiters i ↔ h ∈ bucket (waitersByPriority i) (eh_priority h);
  inv_byReason_keyed : keyed eh_reason (waitersByReason i);
  inv_byReason_noEmpty : noEmpty (waitersByReason i);
  inv_byReason_waiters :
    ∀ h, h ∈ waiters i ↔ h ∈ bucket (waitersByReason i) (eh_reason h);
  inv_byEntry_keyed : keyed eh_e (waitersByEntry i);
  inv_byEntry_noEmpty : noEmpty (waitersByEntry i);
  inv_byEntry_waiters :
    ∀ h, h ∈ waiters i ↔ h ∈ bucket (waitersByEntry i) (eh_e h);
}.

Definition registered (c : Call) : Prop :=
  match pc c with Pending | Decided _ => True | Finished _ | Removed => False end.

Definition granted (c : Call) : Prop :=
  match pc c with Decided true | Finished true => True | _ => False end.

Record SysInv (σ : System) : Prop := {
  inv_reg : RegInv (inst σ);
  inv_waiting :
    ∀ h, h ∈ waiters (inst σ) ↔ ∃ c, calls σ !! h = Some c ∧ registered c;
  inv_held :
    ∀ h k, h ∈ bucket (entries (inst σ)) k →
           ∃ c, calls σ !! h = Some c ∧ granted c;
  inv_cancelled :
    ∀ h c, calls σ !! h = Some c →
           (pc c = Decided false ∨ pc c = Finished false) → call_ctxDone c = true;
}.

(** ** The figures of [PrintStatus]

    [func (i *Instance) PrintStatus(w io.Writer)] reads the variables one
    by one and writes the number of occupied entries, the number of
    waiters, one row per reason with the number of its waiters, and one
    row per held handle. These are the values that go into its format
    strings, rows in the iteration order of the maps; the two time
    columns of a handle row and the tab alignment are not modelled. *)
Definition statusNumEntries (i : Instance) : Z := Z.of_nat (size (entries i)).

Definition statusNumWaiters (i : Instance) : Z := Z.of_nat (size (waiters i)).

Definition statusReasonRows (i : Instance) : list (Z * reason) :=
  (fun rws => (Z.of_nat (size rws.2), rws.1)) <$> map_to_list (waitersByReason i).

Definition statusHandleRows (i : Instance) : list (string * string * string * reason) :=
  ehs ← map_to_list (entries i);
  (fun h => (Protocol ehs.1, LocalAddr ehs.1, RemoteAddr ehs.1, eh_reason h))
    <$> elements ehs.2.

Definition sumZ (l : list Z) : Z := foldr Z.add 0 l.

(** ** Further predicates on states *)

(** With a finite limit the table holds at most [maxEntries] entries. *)
Definition withinLimit (i : Instance) : Prop :=
  noMaxEntries i = false → Z.of_nat (size (entries i)) <= maxEntries i.

(** A step that leaves the capacity variables as they are. *)
Definition fixedCapacityStep (σ σ' : System) : Prop :=
  step σ σ'
  ∧ maxEntries (inst σ') = maxEntries (inst σ)
  ∧ noMaxEntries (inst σ') = noMaxEntries (inst σ).

(** Every granted handle that has not been removed holds its entry. *)
Definition grantedHold (σ : System) : Prop :=
  ∀ h c, calls σ !! h = Some c → granted c →
         h ∈ bucket (entries (inst σ)) (eh_e h).

(** What the admission transaction of [Wait] tests before it reads the
    context variable: the entry has a holder already (the fast path), or
    there is room and no registered waiter has a higher priority. *)
Definition admissible (i : Instance) (eh : EntryHandle) : Prop :=
  is_Some (entries i !! eh_e eh)
  ∨ ((noMaxEntries i = true ∨ Z.of_nat (size (entries i)) < maxEntries i)
     ∧ ∀ h, h ∈ waiters i → eh_priority h <= eh_priority eh).

(** ** Concrete handles and states *)

Definition entry (id : string) : Entry := mkEntry "" "" id.

Definition h1 : EntryHandle := newEntryHandle 1 (entry "1") "" 0 0.
Definition h2 : EntryHandle := newEntryHandle 2 (entry "2") "" 5 0.
Definition h3 : EntryHandle := newEntryHandle 3 (entry "1") "" 0 0.

(** [h1] has called [Wait] and is registered. *)
Definition sys_h1_pending : System :=
  mkSystem (addWaiter h1 NewInstance) (<[h1 := mkCall Pending false]> ∅).

(** The admission transaction of [h1] has returned [true]. *)
Definition sys_h1_decided : System :=
  mkSystem (set_entries (addToMapToSet (entries (inst sys_h1_pending)) (eh_e h1) h1)
                        (inst sys_h1_pending))
           (<[h1 := mkCall (Decided true) false]> (calls sys_h1_pending)).

(** [Wait] has returned [h1] to its caller. *)
Definition sys_h1_finished : System :=
  mkSystem (waitCleanup h1 (inst sys_h1_decided))
           (<[h1 := mkCall (Finished true) false]> (calls sys_h1_decided)).

(** The removal scheduled by [h1.Done()] has fired. *)
Definition sys_h1_removed : System :=
  mkSystem (remove h1 (inst sys_h1_finished))
           (<[h1 := mkCall Removed false]> (calls sys_h1_finished)).

(** [h2], of priority 5, registers while [h1], of priority 0, is pending. *)
Definition sys_two_pending : System :=
  mkSystem (addWaiter h2 (inst sys_h1_pending))
           (<[h2 := mkCall Pending false]> (calls sys_h1_pending)).

(** The admission transaction of [h2] has returned [true]; [h1] is still
    pending. *)
Definition sys_two_h2_decided : System :=
  mkSystem (set_entries (addToMapToSet (entries (inst sys_two_pending)) (eh_e h2) h2)
                        (inst sys_two_pending))
           (<[h2 := mkCall (Decided true) false]> (calls sys_two_pending)).

(** Capacity 0, and a call whose context is already done. *)
Definition sys_full : System := mkSystem (SetMaxEntries 0 NewInstance) ∅.

Definition sys_full_h1 : System :=
  mkSystem (addWaiter h1 (inst sys_full)) (<[h1 := mkCall Pending true]> ∅).

Definition sys_full_h1_decided : System :=
  mkSystem (inst sys_full_h1)
           (<[h1 := mkCall (Decided false) true]> (calls sys_full_h1)).

Definition sys_full_h1_finished : System :=
  mkSystem (waitCleanup h1 (inst sys_full_h1_decided))
           (<[h1 := mkCall (Finished false) true]> (calls sys_full_h1_decided)).

(** Default capacity, and a call whose context is already done. *)
Definition sys_h1_pending_done : System :=
  mkSystem (addWaiter h1 NewInstance) (<[h1 := mkCall Pending true]> ∅).

(** An instance on which [h1] holds entry "1". *)
Definition inst_h1_held : Instance := inst sys_h1_finished.

(** Entry "1" held by [h1] and, after a second [Wait] for it, by [h3]. *)
Definition inst_h1_h3_held : Instance :=
  default NewInstance
    (stateAfter (WaitDefault 3 0 false (entry "1") inst_h1_held)).

(** Capacity 1 and entry "1" held, as in [TestWaitingForSameEntry]. *)
Definition inst_cap1_held : Instance :=
  default NewInstance
    (stateAfter (WaitDefault 1 0 false (entry "1") (SetMaxEntries 1 NewInstance))).

(** * filecache: the index of the cache

    [filecache.Cache] keeps, under its mutex, an index of the files below
    its root: their sizes, their access times and the sum of the sizes.
    The file system is outside the embedding: what [os.Stat] answers is
    an argument of the functions that ask, and the removals and renames
    on disk are not part of the state. *)
Module FileCache.

(** [type key string] *)
Definition key := string.

(** [time.Time], as the nanoseconds since the zero time: [IsZero] is
    equality with 0. *)
Definition time := Z.
Definition IsZero (t : time) : bool := t =? 0.

(** The value of an [int64] computation. *)
Definition int64 (z : Z) : Z := (z + 2 ^ 63) mod 2 ^ 64 - 2 ^ 63.

(** [type ItemInfo struct { Accessed time.Time; Size int64; Path key }] *)
Record ItemInfo := mkItemInfo {
  Accessed : time;
  Size : Z;
  Path : key;
}.

Definition zeroItemInfo : ItemInfo := mkItemInfo 0 0 "".

(** [type CacheInfo struct { Capacity, Filled int64; NumItems int }] *)
Record CacheInfo := mkCacheInfo {
  Capacity : Z;
  Filled : Z;
  NumItems : Z;
}.

(** The methods of the [Policy] interface that the cache calls; the
    interface and its implementation are declared elsewhere. *)
Class Policy (P : Type) := {
  Used : key -> time -> P -> P;
  Forget : key -> P -> P;
  Choose : P -> key;
}.

(** What [os.Stat] answers: no such file, another error, or the size and
    the two times the cache reads ([fi.Size()], [fi.ModTime()] and
    [missinggo.FileInfoAccessTime(fi)]). *)
Record FileInfo := mkFileInfo {
  fi_Size : Z;
  fi_ModTime : time;
  fi_AccessTime : time;
}.

Inductive StatResult : Type :=
| NotExist
| StatError (err : string)
| Stat (fi : FileInfo).

Section Cache.
Context {P : Type} `{Policy P}.

(** [type Cache struct]; the mutex is held by every function below. *)
Record Cache := mkCache {
  capacity : Z;
  filled : Z;
  policy : P;
  paths : gmap key ItemInfo;
  root : string;
}.

(** A function that ends normally or in [panic(err)]. *)
Inductive Run : Type :=
| Done (me : Cache)
| Panics (err : string).

(** [func (me *Cache) Info() (ret CacheInfo)] *)
Definition Info (me : Cache) : CacheInfo :=
  mkCacheInfo (capacity me) (filled me) (Z.of_nat (size (paths me))).

(** [func (me *Cache) SetCapacity(capacity int64)] *)
Definition SetCapacity (c : Z) (me : Cache) : Cache :=
  mkCache c (filled me) (policy me) (paths me) (root me).

(** [func (me *Cache) removeInfo(path key) (ret ItemInfo, ok bool)] *)
Definition removeInfo (path : key) (me : Cache) : ItemInfo * bool * Cache :=
  match paths me !! path with
  | None => (zeroItemInfo, false, me)
  | Some ret =>
      (ret, true,
       mkCache (capacity me) (int64 (filled me - Size ret))
               (Forget path (policy me)) (delete path (paths me)) (root me))
  end.

(** [func (me *Cache) statItem(path key, access time.Time)]. [st] is the
    answer of [os.Stat(me.realpath(path))]; [maxTime a b] is
    [missinggo.Max(Before, a, b)], which is declared elsewhere. *)
Definition statItem (maxTime : time -> time -> time) (st : StatResult)
    (path : key) (access : time) (me : Cache) : Run :=
  let '(info, ok, me1) := removeInfo path me in
  match st with
  | NotExist => Done me1
  | StatError err => Panics err
  | Stat fi =>
      let info1 := if ok then info else mkItemInfo (Accessed info) (Size info) path in
      let info2 := if negb (IsZero access)
                   then mkItemInfo access (Size info1) (Path info1) else info1 in
      let info3 := if IsZero (Accessed info2)
                   then mkItemInfo (maxTime (fi_AccessTime fi) (fi_ModTime fi))
                                   (Size info2) (Path info2)
                   else info2 in
      let info4 := mkItemInfo (Accessed info3) (fi_Size fi) (Path info3) in
      Done (mkCache (capacity me1) (int64 (filled me1 + Size info4))
                    (Used path (Accessed info4) (policy me1))
                    (<[path := info4]> (paths me1)) (root me1))
  end.

(** The update of the index at the end of [OpenFile]
    ([info, ok := me.removeInfo(key)] and what follows). *)
Definition openFileUpdate (maxTime : time -> time -> time) (st : StatResult)
    (k : key) (accessed : time) (me : Cache) : Run :=
  let '(info, ok, me1) := removeInfo k me in
  if negb ok then statItem maxTime st k accessed me1
  else
    let info1 := mkItemInfo accessed (Size info) (Path info) in
    Done (mkCache (capacity me1) (int64 (filled me1 + Size info1))
                  (Used k accessed (policy me1))
                  (<[k := info1]> (paths me1)) (root me1)).

(** [func (me *Cache) remove(path key) (err error)], its effect on the
    index: the file is removed on disk, empty directories are pruned, and
    [removeInfo] drops the item. *)
Definition remove (path : key) (me : Cache) : Cache :=
  (removeInfo path me).2.

(** The update of the index at the end of [Rename], once the rename on
    disk has succeeded. *)
Definition renameUpdate (maxTime : time -> time -> time) (st : StatResult)
    (from to : key) (now : time) (me : Cache) : Run :=
  statItem maxTime st to now (removeInfo from me).2.

(** [func (me *Cache) trimToCapacity()]; each unit of fuel pays for one
    round of the loop. *)
Fixpoint trimLoop (fuel : nat) (me : Cache) : option Cache :=
  if filled me >? capacity me then
    match fuel with
    | O => None
    | S n => trimLoop n (remove (Choose (policy me)) me)
    end
  else Some me.

Definition trimToCapacity (fuel : nat) (me : Cache) : option Cache :=
  if capacity me <? 0 then Some me else trimLoop fuel me.

(** The sum of the sizes of the items, and the invariant of the index:
    [filled] is that sum, as an [int64]. *)
Definition sumSizes (m : gmap key ItemInfo) : Z :=
  map_fold (fun _ info acc => Size info + acc) 0 m.

Definition accounted (me : Cache) : Prop :=
  filled me = int64 (sumSizes (paths me)).
End Cache.

Arguments Cache P : clear implicits.
Arguments Run P : clear implicits.

(** What the cache needs of a policy for its trimming loop to end: the
    policy keeps track of a set of keys, [Used] and [Forget] add and drop
    a key, and [Choose] picks one of the keys it tracks. *)
Class LawfulPolicy (P : Type) `{Policy P} := {
  tracks : P -> gset key -> Prop;
  tracks_Used : ∀ p K k t, tracks p K → tracks (Used k t p) ({[k]} ∪ K);
  tracks_Forget : ∀ p K k, tracks p K → tracks (Forget k p) (K ∖ {[k]});
  tracks_Choose : ∀ p K, tracks p K → K ≠ ∅ → Choose p ∈ K;
}.

(** Modelled from the spec: the policy [lru], which is not among the
    source files; the spec calls the cache an LRU file cache. The keys
    are kept most recently used first, and [Choose] picks the last. *)
Definition lru := list key.

#[global] Instance lru_policy : Policy lru := {|
  Used k _ p := k :: filter (fun k' => k' ≠ k) p;
  Forget k p := filter (fun k' => k' ≠ k) p;
  Choose p := default "" (last p);
|}.

#[global] Instance lru_lawful : LawfulPolicy lru.
Proof.
  refine {| tracks p K := ∀ k, k ∈ p ↔ k ∈ K |}.
  - intros p K k t Hp k'. simpl.
    rewrite elem_of_cons, list_elem_of_filter, Hp, elem_of_union, elem_of_singleton.
    destruct (decide (k' = k)); naive_solver.
  - intros p K k Hp k'. simpl.
    rewrite list_elem_of_filter, Hp, elem_of_difference, elem_of_singleton.
    naive_solver.
  - intros p K Hp HK. simpl. apply Hp.
    destruct (set_choose_L K HK) as [k Hk]. apply Hp in Hk.
    destruct (last p) as [x|] eqn:Hlast.
    + simpl. apply last_Some in Hlast as [l' ->].
      apply elem_of_app. right. by left.
    + apply last_None in Hlast. subst p. by apply elem_of_nil in Hk.
Defined.

(** A cache with two items, 30 bytes against a capacity of 25. *)
Definition twoFiles : Cache lru :=
  mkCache 25 30 ["b"; "a"]
          (<["a" := mkItemInfo 1 10 "a"]> (<["b" := mkItemInfo 2 20 "b"]> ∅))
          "/cache".

End FileCache.

(** * Properties *)

(** ** Map-to-set helpers, bucket by bucket *)

Section BucketLemmas.
Context {K : Type} {EqK : EqDecision K} {CountK : Countable K}.
Implicit Types (m : gmap K entryHandleSet) (k : K) (x h : EntryHandle).

Lemma bucket_Some m k s : m !! k = Some s → bucket m k = s.
Proof. unfold bucket. by intros ->. Qed.

Lemma bucket_None m k : m !! k = None → bucket m k = ∅.
Proof. unfold bucket. by intros ->. Qed.

Lemma bucket_insert m k s k' :
  bucket (<[k := s]> m) k' = if decide (k = k') then s else bucket m k'.
Proof.
  unfold bucket. rewrite lookup_insert. by case_decide.
Qed.

Lemma bucket_delete m k k' :
  bucket (delete k m) k' = if decide (k = k') then ∅ else bucket m k'.
Proof.
  unfold bucket. rewrite lookup_delete. by case_decide.
Qed.

Lemma bucket_addToMapToSet m k x k' :
  bucket (addToMapToSet m k x) k' =
  if decide (k = k') then bucket m k ∪ {[x]} else bucket m k'.
Proof.
  unfold addToMapToSet. rewrite bucket_insert.
  case_decide; [|done]. unfold bucket. by destruct (m !! k).
Qed.

Lemma size_zero_empty (s : entryHandleSet) :
  (Z.of_nat (size s) =? 0) = true ↔ s = ∅.
Proof.
  rewrite Z.eqb_eq. split.
  - intros Hs. apply leibniz_equiv, size_empty_iff. lia.
  - intros ->. by rewrite size_empty.
Qed.

Lemma bucket_deleteFromMapToSet m k x k' :
  bucket (deleteFromMapToSet m k x).1 k' =
  if decide (k = k') then bucket m k ∖ {[x]} else bucket m k'.
Proof.
  unfold deleteFromMapToSet.
  destruct (m !! k) as [s|] eqn:Hk; simpl.
  - destruct (Z.of_nat (size (s ∖ {[x]})) =? 0) eqn:Hz; simpl.
    + apply size_zero_empty in Hz.
      rewrite bucket_delete. case_decide; [|done].
      by rewrite (bucket_Some _ _ _ Hk), Hz.
    + rewrite bucket_insert. case_decide; [|done].
      by rewrite (bucket_Some _ _ _ Hk).
  - case_decide; [|done]. subst k'.
    rewrite (bucket_None _ _ Hk). set_solver.
Qed.

Lemma noEmpty_addToMapToSet m k x : noEmpty m → noEmpty (addToMapToSet m k x).
Proof.
  intros Hm k'. unfold addToMapToSet. rewrite lookup_insert.
  case_decide; [|apply Hm].
  intros [=Hs]. destruct (m !! k); set_solver.
Qed.

Lemma noEmpty_deleteFromMapToSet m k x :
  noEmpty m → noEmpty (deleteFromMapToSet m k x).1.
Proof.
  intros Hm k'. unfold deleteFromMapToSet.
  destruct (m !! k) as [s|] eqn:Hk; simpl; [|apply Hm].
  destruct (Z.of_nat (size (s ∖ {[x]})) =? 0) eqn:Hz; simpl.
  - rewrite lookup_delete. case_decide; [done|apply Hm].
  - rewrite lookup_insert. case_decide; [|apply Hm].
    intros [=Hs]. rewrite Hs, size_empty in Hz. discriminate.
Qed.

Lemma noEmpty_insert_add m k s x : noEmpty m → noEmpty (<[k := s ∪ {[x]}]> m).
Proof.
  intros Hm k'. rewrite lookup_insert.
  case_decide; [|apply Hm]. intros [=Hs]. set_solver.
Qed.

Lemma keyed_addToMapToSet (key : EntryHandle -> K) m x :
  keyed key m → keyed key (addToMapToSet m (key x) x).
Proof.
  intros Hm k' h. rewrite bucket_addToMapToSet.
  case_decide; [|apply Hm]. subst k'.
  rewrite elem_of_union, elem_of_singleton.
  intros [Hh| ->]; [by apply Hm|done].
Qed.

Lemma keyed_deleteFromMapToSet (key : EntryHandle -> K) m k x :
  keyed key m → keyed key (deleteFromMapToSet m k x).1.
Proof.
  intros Hm k' h. rewrite bucket_deleteFromMapToSet.
  case_decide; [|apply Hm]. subst k'.
  rewrite elem_of_difference. intros [Hh _]. by apply Hm.
Qed.

Lemma noEmpty_bucket m k : noEmpty m → bucket m k = ∅ → m !! k = None.
Proof.
  intros Hm. unfold bucket. destruct (m !! k) as [s|] eqn:Hk; [|done].
  simpl. intros ->. by destruct (Hm k).
Qed.

(** When the key is absent the map comes back as it was. *)
Lemma deleteFromMapToSet_absent m k x :
  m !! k = None → deleteFromMapToSet m k x = (m, true).
Proof. unfold deleteFromMapToSet. by intros ->. Qed.

(** Removing a handle that is not a holder changes nothing. *)
Lemma deleteFromMapToSet_not_elem m k x :
  noEmpty m → x ∉ bucket m k → (deleteFromMapToSet m k x).1 = m.
Proof.
  intros Hm Hx. unfold deleteFromMapToSet.
  destruct (m !! k) as [s|] eqn:Hk; [|done].
  rewrite (bucket_Some _ _ _ Hk) in Hx.
  assert (s ∖ {[x]} = s) as -> by set_solver.
  destruct (Z.of_nat (size s) =? 0) eqn:Hz; simpl.
  - apply size_zero_empty in Hz. subst s. by destruct (Hm k).
  - by apply insert_id.
Qed.

(** A second removal of the same element is the identity, whatever the
    map. *)
Lemma deleteFromMapToSet_twice m k x :
  (deleteFromMapToSet (deleteFromMapToSet m k x).1 k x).1 =
  (deleteFromMapToSet m k x).1.
Proof.
  unfold deleteFromMapToSet at 2 3.
  destruct (m !! k) as [s|] eqn:Hk; simpl.
  - destruct (Z.of_nat (size (s ∖ {[x]})) =? 0) eqn:Hz; simpl.
    + by rewrite deleteFromMapToSet_absent by apply lookup_delete_eq.
    + unfold deleteFromMapToSet. rewrite lookup_insert_eq.
      assert (s ∖ {[x]} ∖ {[x]} = s ∖ {[x]}) as -> by set_solver.
      rewrite Hz. simpl. by rewrite insert_insert_eq.
  - by rewrite deleteFromMapToSet_absent.
Qed.
End BucketLemmas.

(** ** The first key of the sorted map is the highest priority *)

Lemma head_insertBy {A} (less : A -> A -> bool) k l :
  head (insertBy less k l) =
  Some (match head l with
        | None => k
        | Some k' => if less k k' then k else k'
        end).
Proof. destruct l as [|k' l]; simpl; [done|]. by destruct (less k k'). Qed.

Lemma head_sortBy_priorityLess (l : list priority) :
  match head (sortBy priorityLess l) with
  | None => l = []
  | Some top => top ∈ l ∧ ∀ k, k ∈ l → k <= top
  end.
Proof.
  induction l as [|x l IH]; simpl; [done|].
  rewrite head_insertBy.
  destruct (head (sortBy priorityLess l)) as [top|].
  - destruct IH as [Hin Hmax]. unfold priorityLess.
    case_bool_decide as Hlt.
    + split; [by left|]. intros k [->|Hk]%elem_of_cons; [lia|].
      specialize (Hmax k Hk). lia.
    + split; [by right|]. intros k [->|Hk]%elem_of_cons; [lia|].
      by apply Hmax.
  - subst l. split; [by left|].
    intros k [->|Hk]%elem_of_cons; [lia|]. by apply elem_of_nil in Hk.
Qed.

Lemma First_Iter_None {V} (m : gmap priority V) :
  First (Iter m) = None ↔ m = ∅.
Proof.
  unfold First, Iter.
  pose proof (head_sortBy_priorityLess (elements (dom m))) as Hs.
  split.
  - intros Hn. rewrite Hn in Hs.
    apply elements_empty_inv in Hs. apply leibniz_equiv in Hs.
    by apply dom_empty_inv_L.
  - intros ->. by rewrite dom_empty_L, elements_empty.
Qed.

Lemma First_Iter_Some {V} (m : gmap priority V) top :
  First (Iter m) = Some top →
  is_Some (m !! top) ∧ ∀ k, is_Some (m !! k) → k <= top.
Proof.
  unfold First, Iter. intros Hf.
  pose proof (head_sortBy_priorityLess (elements (dom m))) as Hs.
  rewrite Hf in Hs. destruct Hs as [Hin Hmax].
  split.
  - by apply elem_of_dom, elem_of_elements.
  - intros k Hk. by apply Hmax, elem_of_elements, elem_of_dom.
Qed.

(** ** The operations, unfolded *)

Lemma addWaiter_eq eh i :
  addWaiter eh i =
  {| maxEntries := maxEntries i;
     noMaxEntries := noMaxEntries i;
     Timeout := Timeout i;
     entries := entries i;
     waitersByPriority := addToMapToSet (waitersByPriority i) (eh_priority eh) eh;
     waitersByReason := addToMapToSet (waitersByReason i) (eh_reason eh) eh;
     waitersByEntry := addToMapToSet (waitersByEntry i) (eh_e eh) eh;
     waiters := waiters i ∪ {[eh]} |}.
Proof. reflexivity. Qed.

Lemma waitCleanup_eq eh i :
  waitCleanup eh i =
  {| maxEntries := maxEntries i;
     noMaxEntries := noMaxEntries i;
     Timeout := Timeout i;
     entries := entries i;
     waitersByPriority := (deleteFromMapToSet (waitersByPriority i) (eh_priority eh) eh).1;
     waitersByReason := (deleteFromMapToSet (waitersByReason i) (eh_reason eh) eh).1;
     waitersByEntry := (deleteFromMapToSet (waitersByEntry i) (eh_e eh) eh).1;
     waiters := waiters i ∖ {[eh]} |}.
Proof. reflexivity. Qed.

Lemma remove_eq eh i :
  remove eh i = set_entries (deleteFromMapToSet (entries i) (eh_e eh) eh).1 i.
Proof. reflexivity. Qed.

Lemma SetMaxEntries_eq max i :
  SetMaxEntries max i = set_maxEntries max (set_noMaxEntries false i).
Proof. reflexivity. Qed.

Lemma SetNoMaxEntries_eq i :
  SetNoMaxEntries i = set_noMaxEntries true i.
Proof. reflexivity. Qed.

Lemma waitTx_eq eh d i :
  Atomically (waitTx eh d) i =
  match entries i !! eh_e eh with
  | Some s =>
      Committed (Some true) (set_entries (<[eh_e eh := s ∪ {[eh]}]> (entries i)) i)
  | None =>
      match First (Iter (waitersByPriority i)) with
      | None => Panicked "y u no waiting"
      | Some topPrio =>
          if (noMaxEntries i || (Z.of_nat (size (entries i)) <? maxEntries i))
             && (eh_priority eh =? topPrio)
          then Committed (Some true)
                 (set_entries (addToMapToSet (entries i) (eh_e eh) eh) i)
          else if d then Committed (Some false) i else Blocked
      end
  end.
Proof.
  unfold Atomically, waitTx, tx_bind, tx_Get, haveRoom.
  destruct (entries i !! eh_e eh); [done|]. simpl.
  destruct (First (Iter (waitersByPriority i))); [|done].
  destruct (_ && _); [done|]. simpl. by destruct d.
Qed.

(** ** The flat set against one keyed registry *)

Section FlatAgainstKeyed.
Context {K : Type} {EqK : EqDecision K} {CountK : Countable K}.
Variable key : EntryHandle -> K.
Implicit Types (m : gmap K entryHandleSet) (ws : entryHandleSet).

Lemma agree_addToMapToSet m ws x :
  (∀ h, h ∈ ws ↔ h ∈ bucket m (key h)) →
  ∀ h, h ∈ ws ∪ {[x]} ↔ h ∈ bucket (addToMapToSet m (key x) x) (key h).
Proof.
  intros Hag h. rewrite bucket_addToMapToSet, elem_of_union, elem_of_singleton.
  case_decide as Hk.
  - rewrite elem_of_union, elem_of_singleton, Hk. by rewrite Hag.
  - rewrite Hag. split; [|by left].
    intros [Hh| ->]; [done|]. by destruct Hk.
Qed.

Lemma agree_deleteFromMapToSet m ws x :
  (∀ h, h ∈ ws ↔ h ∈ bucket m (key h)) →
  ∀ h, h ∈ ws ∖ {[x]} ↔ h ∈ bucket (deleteFromMapToSet m (key x) x).1 (key h).
Proof.
  intros Hag h.
  rewrite bucket_deleteFromMapToSet, elem_of_difference, elem_of_singleton.
  case_decide as Hk.
  - rewrite elem_of_difference, elem_of_singleton, Hk. by rewrite Hag.
  - rewrite Hag. split; [by intros [? _]|].
    intros Hh. split; [done|]. intros ->. by destruct Hk.
Qed.

Lemma elem_bucket_add_eq m x : x ∈ bucket (addToMapToSet m (key x) x) (key x).
Proof. rewrite bucket_addToMapToSet, decide_True by done. set_solver. Qed.

Lemma elem_bucket_add_ne m x h :
h ≠ x → h ∈ bucket (addToMapToSet m (key x) x) (key h) ↔ h ∈ bucket m (key h).
Proof.
intros Hne. rewrite bucket_addToMapToSet.
case_decide as Hk; [|done]. rewrite Hk. set_solver.
Qed.

Lemma elem_bucket_delete_eq m x :
x ∉ bucket (deleteFromMapToSet m (key x) x).1 (key x).
Proof. rewrite bucket_deleteFromMapToSet, decide_True by done. set_solver. Qed.

Lemma elem_bucket_delete_ne m x h :
h ≠ x →
h ∈ bucket (deleteFromMapToSet m (key x) x).1 (key h) ↔ h ∈ bucket m (key h).
Proof.
intros Hne. rewrite bucket_deleteFromMapToSet.
case_decide as Hk; [|done]. rewrite Hk. set_solver.
Qed.

(** Under [keyed], a handle outside its own bucket is in no bucket. *)
Lemma keyed_not_elem m h :
  keyed key m → h ∉ bucket m (key h) → ∀ k, h ∉ bucket m k.
Proof.
  intros Hk Hh k Hin. apply Hh. by rewrite (Hk k h Hin).
Qed.
End FlatAgainstKeyed.

(** ** The registry invariant is kept by every transaction *)

Lemma RegInv_NewInstance : RegInv NewInstance.
Proof.
  constructor; simpl; try (intros k h; unfold bucket; rewrite lookup_empty; set_solver);
    try (intros k; by rewrite lookup_empty);
    intros h; unfold bucket; rewrite lookup_empty; set_solver.
Qed.

Lemma RegInv_addWaiter eh i : RegInv i → RegInv (addWaiter eh i).
Proof.
  intros []. rewrite addWaiter_eq. constructor; simpl;
    auto using (@keyed_addToMapToSet), (@noEmpty_addToMapToSet),
               (@agree_addToMapToSet).
Qed.

Lemma RegInv_waitCleanup eh i : RegInv i → RegInv (waitCleanup eh i).
Proof.
  intros []. rewrite waitCleanup_eq. constructor; simpl;
    auto using (@keyed_deleteFromMapToSet), (@noEmpty_deleteFromMapToSet),
               (@agree_deleteFromMapToSet).
Qed.

Lemma RegInv_set_entries es i :
  keyed eh_e es → noEmpty es → RegInv i → RegInv (set_entries es i).
Proof. intros ?? []. by constructor. Qed.

Lemma RegInv_remove eh i : RegInv i → RegInv (remove eh i).
Proof.
  intros Hi. rewrite remove_eq. destruct Hi.
  apply RegInv_set_entries;
    [by apply keyed_deleteFromMapToSet|by apply noEmpty_deleteFromMapToSet|].
  by constructor.
Qed.

Lemma RegInv_SetMaxEntries max i : RegInv i → RegInv (SetMaxEntries max i).
Proof. intros []. by constructor. Qed.

Lemma RegInv_SetNoMaxEntries i : RegInv i → RegInv (SetNoMaxEntries i).
Proof. intros []. by constructor. Qed.

Lemma RegInv_set_Timeout f i : RegInv i → RegInv (set_Timeout f i).
Proof. intros []. by constructor. Qed.

Lemma keyed_insert_add es (eh : EntryHandle) s :
  es !! eh_e eh = Some s → keyed eh_e es →
  keyed eh_e (<[eh_e eh := s ∪ {[eh]}]> es).
Proof.
  intros Hs Hk k h. rewrite bucket_insert.
  case_decide; [|apply Hk]. subst k.
  rewrite elem_of_union, elem_of_singleton. intros [Hh| ->]; [|done].
  apply Hk. by rewrite (bucket_Some _ _ _ Hs).
Qed.

Lemma RegInv_waitTx eh d i r i' :
  Atomically (waitTx eh d) i = Committed r i' → RegInv i → RegInv i'.
Proof.
  rewrite waitTx_eq. intros Htx Hi.
  destruct (entries i !! eh_e eh) as [s|] eqn:Hs.
  - injection Htx as <- <-. destruct Hi.
    apply RegInv_set_entries;
      [by apply keyed_insert_add|by apply noEmpty_insert_add|by constructor].
  - destruct (First (Iter (waitersByPriority i))); [|done].
    destruct (_ && _).
    + injection Htx as <- <-. destruct Hi.
      apply RegInv_set_entries;
        [by apply keyed_addToMapToSet|by apply noEmpty_addToMapToSet
        |by constructor].
    + destruct d; [|done]. by injection Htx as <- <-.
Qed.

(** ** The four ways the admission transaction can end *)

Lemma fast_path_is_add es (eh : EntryHandle) s :
  es !! eh_e eh = Some s →
  <[eh_e eh := s ∪ {[eh]}]> es = addToMapToSet es (eh_e eh) eh.
Proof. unfold addToMapToSet. by intros ->. Qed.

Lemma waitTx_cases eh d i :
  Atomically (waitTx eh d) i =
    Committed (Some true) (set_entries (addToMapToSet (entries i) (eh_e eh) eh) i)
  ∨ (Atomically (waitTx eh d) i = Committed (Some false) i
     ∧ d = true ∧ entries i !! eh_e eh = None)
  ∨ (Atomically (waitTx eh d) i = Blocked
     ∧ d = false ∧ entries i !! eh_e eh = None)
  ∨ (Atomically (waitTx eh d) i = Panicked "y u no waiting"
     ∧ waitersByPriority i = ∅ ∧ entries i !! eh_e eh = None).
Proof.
  rewrite waitTx_eq.
  destruct (entries i !! eh_e eh) as [s|] eqn:Hs.
  - left. by rewrite (fast_path_is_add _ _ _ Hs).
  - destruct (First (Iter (waitersByPriority i))) eqn:Hf.
    + destruct (_ && _); [by left|].
      destruct d; [right; left|right; right; left]; done.
    + right; right; right. by apply First_Iter_None in Hf.
Qed.

Lemma waitTx_committed eh d i r i' :
  Atomically (waitTx eh d) i = Committed r i' →
  (r = Some true ∧ i' = set_entries (addToMapToSet (entries i) (eh_e eh) eh) i)
  ∨ (r = Some false ∧ i' = i ∧ d = true ∧ entries i !! eh_e eh = None).
Proof.
  destruct (waitTx_cases eh d i) as [Hc|[(Hc&?&?)|[(Hc&?&?)|(Hc&?&?)]]];
    rewrite Hc; intros [= <- <-]; auto.
Qed.

(** The branch taken on an entry without holders, from the three values
    the transaction reads. *)
Lemma waitTx_admits_new i eh d top :
  entries i !! eh_e eh = None →
  First (Iter (waitersByPriority i)) = Some top →
  (noMaxEntries i || (Z.of_nat (size (entries i)) <? maxEntries i))
    && (eh_priority eh =? top) = true →
  Atomically (waitTx eh d) i =
  Committed (Some true) (set_entries (addToMapToSet (entries i) (eh_e eh) eh) i).
Proof. intros Hnone Hf Hcond. by rewrite waitTx_eq, Hnone, Hf, Hcond. Qed.

Lemma waitTx_not_admitted i eh d top :
  entries i !! eh_e eh = None →
  First (Iter (waitersByPriority i)) = Some top →
  (noMaxEntries i || (Z.of_nat (size (entries i)) <? maxEntries i))
    && (eh_priority eh =? top) = false →
  Atomically (waitTx eh d) i = if d then Committed (Some false) i else Blocked.
Proof. intros Hnone Hf Hcond. by rewrite waitTx_eq, Hnone, Hf, Hcond. Qed.

(** ** The system invariant *)

Lemma SysInv_initial : SysInv initial.
Proof.
  constructor; simpl.
  - apply RegInv_NewInstance.
  - intros h. split; [set_solver|]. intros (c & Hc & _).
    by rewrite lookup_empty in Hc.
  - intros h k. unfold bucket. rewrite lookup_empty. set_solver.
  - intros h c Hc. by rewrite lookup_empty in Hc.
Qed.

Lemma fresh_not_called σ eh :
  (∀ h, h ∈ dom (calls σ) → eh_addr h ≠ eh_addr eh) → calls σ !! eh = None.
Proof.
  intros Hfresh. apply not_elem_of_dom. intros Hin. by apply (Hfresh eh Hin).
Qed.

Lemma SysInv_step σ σ' : SysInv σ → step σ σ' → SysInv σ'.
Proof.
  intros [Hreg Hwait Hheld Hcan] Hstep.
  destruct Hstep as [σ eh d Hfresh|σ eh c Hc|σ eh d b i' Hc Htx
                    |σ eh d b Hc|σ eh d at_pc Hc Hpc|σ max|σ|σ f].
  - (* Wait registers its handle *)
    apply fresh_not_called in Hfresh.
    constructor; simpl.
    + by apply RegInv_addWaiter.
    + intros h.
      rewrite elem_of_union, elem_of_singleton, Hwait.
      destruct (decide (h = eh)) as [->|Hne].
      * rewrite lookup_insert_eq. split; [|by right]. intros _. by eexists.
      * rewrite lookup_insert_ne by done. naive_solver.
    + intros h k Hh. destruct (Hheld h k Hh) as (c & Hc & Hg).
      exists c. split; [|done].
      rewrite lookup_insert_ne; [done|]. intros <-. congruence.
    + intros h c. destruct (decide (h = eh)) as [->|Hne].
      * rewrite lookup_insert_eq. intros [= <-]. simpl. by intros [|].
      * rewrite lookup_insert_ne by done. apply Hcan.
  - (* the context of a call completes *)
    constructor; simpl.
    + done.
    + intros h. rewrite Hwait. destruct (decide (h = eh)) as [->|Hne].
      * rewrite lookup_insert_eq, Hc. split.
        -- intros (c' & [= <-] & Hr). by eexists.
        -- intros (c' & [= <-] & Hr). by eexists.
      * by rewrite lookup_insert_ne.
    + intros h k Hh. destruct (Hheld h k Hh) as (c' & Hc' & Hg).
      destruct (decide (h = eh)) as [->|Hne].
      * rewrite lookup_insert_eq. eexists. split; [done|].
        assert (c' = c) as -> by congruence. exact Hg.
      * rewrite lookup_insert_ne by done. by exists c'.
    + intros h c'. destruct (decide (h = eh)) as [->|Hne].
      * rewrite lookup_insert_eq. by intros [= <-].
      * rewrite lookup_insert_ne by done. apply Hcan.
  - (* the admission transaction returns *)
    pose proof (RegInv_waitTx _ _ _ _ _ Htx Hreg) as Hreg'.
    apply waitTx_committed in Htx as [[[= ->] ->]|([= ->] & -> & -> & Hnone)];
      constructor; simpl; try done.
    + intros h. rewrite Hwait. destruct (decide (h = eh)) as [->|Hne].
      * rewrite lookup_insert_eq, Hc. split; intros _; by eexists.
      * by rewrite lookup_insert_ne.
    + intros h k. rewrite bucket_addToMapToSet.
      destruct (decide (h = eh)) as [->|Hne].
      * intros _. rewrite lookup_insert_eq. by eexists.
      * rewrite lookup_insert_ne by done. intros Hh. apply (Hheld h k).
        case_decide; [|done]. subst k. set_solver.
    + intros h c. destruct (decide (h = eh)) as [->|Hne].
      * rewrite lookup_insert_eq. intros [= <-]. simpl. by intros [|].
      * rewrite lookup_insert_ne by done. apply Hcan.
    + intros h. rewrite Hwait. destruct (decide (h = eh)) as [->|Hne].
      * rewrite lookup_insert_eq, Hc. split; intros _; by eexists.
      * by rewrite lookup_insert_ne.
    + intros h k Hh. destruct (Hheld h k Hh) as (c' & Hc' & Hg).
      destruct (decide (h = eh)) as [->|Hne].
      * rewrite Hc in Hc'. by injection Hc' as <-.
      * rewrite lookup_insert_ne by done. by exists c'.
    + intros h c. destruct (decide (h = eh)) as [->|Hne].
      * rewrite lookup_insert_eq. by intros [= <-].
      * rewrite lookup_insert_ne by done. apply Hcan.
  - (* Wait deregisters its handle *)
    constructor; simpl.
    + by apply RegInv_waitCleanup.
    + intros h.
      rewrite elem_of_difference, elem_of_singleton, Hwait.
      destruct (decide (h = eh)) as [->|Hne].
      * rewrite lookup_insert_eq. split; [by intros [_ ?]|].
        by intros (c' & [= <-] & ?).
      * rewrite lookup_insert_ne by done. naive_solver.
    + intros h k Hh. destruct (Hheld h k Hh) as (c' & Hc' & Hg).
      destruct (decide (h = eh)) as [->|Hne].
      * rewrite lookup_insert_eq. eexists. split; [done|].
        rewrite Hc in Hc'. injection Hc' as <-. by destruct b.
      * rewrite lookup_insert_ne by done. by exists c'.
    + intros h c'. destruct (decide (h = eh)) as [->|Hne].
      * rewrite lookup_insert_eq. intros [= <-]. simpl.
        intros [|[= ->]]; [done|]. apply (Hcan eh _ Hc). by left.
      * rewrite lookup_insert_ne by done. apply Hcan.
  - (* a scheduled removal fires *)
    constructor; simpl.
    + by apply RegInv_remove.
    + intros h. rewrite Hwait. destruct (decide (h = eh)) as [->|Hne].
      * rewrite lookup_insert_eq, Hc. split.
        -- intros (c' & [= <-] & Hr). by destruct Hpc as [->| ->].
        -- by intros (c' & [= <-] & Hr).
      * by rewrite lookup_insert_ne.
    + intros h k. rewrite bucket_deleteFromMapToSet.
      destruct (decide (h = eh)) as [->|Hne].
      * case_decide as Hk; [set_solver|].
        intros Hh. destruct Hk.
        by apply (inv_entries_keyed _ Hreg k eh).
      * rewrite lookup_insert_ne by done. intros Hh. apply (Hheld h k).
        case_decide; [|done]. subst k. set_solver.
    + intros h c'. destruct (decide (h = eh)) as [->|Hne].
      * rewrite lookup_insert_eq. intros [= <-]. simpl. by intros [|].
      * rewrite lookup_insert_ne by done. apply Hcan.
  - constructor; simpl; try done. by apply RegInv_SetMaxEntries.
  - constructor; simpl; try done. by apply RegInv_SetNoMaxEntries.
  - constructor; simpl; try done. by apply RegInv_set_Timeout.
Qed.

Lemma reachable_SysInv σ : reachable σ → SysInv σ.
Proof.
  induction 1 as [|σ σ' _ IH Hstep]; [apply SysInv_initial|].
  by apply (SysInv_step σ).
Qed.

(** ** The concrete states are reachable *)

Lemma fresh_in_empty eh : ∀ h, h ∈ dom (∅ : gmap EntryHandle Call) → eh_addr h ≠ eh_addr eh.
Proof. intros h Hh. rewrite dom_empty_L in Hh. by apply not_elem_of_empty in Hh. Qed.

Lemma h1_pending_call : calls sys_h1_pending !! h1 = Some (mkCall Pending false).
Proof. apply lookup_insert_eq. Qed.

Lemma h1_pending_no_holder : entries (inst sys_h1_pending) !! eh_e h1 = None.
Proof. apply lookup_empty. Qed.

Lemma h1_pending_admitted :
  Atomically (waitTx h1 false) (inst sys_h1_pending)
  = Committed (Some true) (inst sys_h1_decided).
Proof.
  apply (waitTx_admits_new (inst sys_h1_pending) h1 false 0);
    [apply lookup_empty|compute_done|compute_done].
Qed.

Lemma reachable_h1_pending : reachable sys_h1_pending.
Proof.
  apply (reach_step initial); [apply reach_initial|].
  apply (step_register initial h1 false), fresh_in_empty.
Qed.

Lemma reachable_h1_decided : reachable sys_h1_decided.
Proof.
  apply (reach_step sys_h1_pending); [apply reachable_h1_pending|].
  apply (step_admission sys_h1_pending h1 false true (inst sys_h1_decided));
    [apply h1_pending_call|apply h1_pending_admitted].
Qed.

Lemma h1_finished_call :
  calls sys_h1_finished !! h1 = Some (mkCall (Finished true) false).
Proof. apply lookup_insert_eq. Qed.

Lemma reachable_h1_finished : reachable sys_h1_finished.
Proof.
  apply (reach_step sys_h1_decided); [apply reachable_h1_decided|].
  apply (step_deregister sys_h1_decided h1 false true). apply lookup_insert_eq.
Qed.

Lemma reachable_h1_removed : reachable sys_h1_removed.
Proof.
  apply (reach_step sys_h1_finished); [apply reachable_h1_finished|].
  apply (step_remove sys_h1_finished h1 false (Finished true));
    [apply h1_finished_call|by left].
Qed.

Lemma two_pending_call : calls sys_two_pending !! h1 = Some (mkCall Pending false).
Proof.
  unfold sys_two_pending. simpl. rewrite lookup_insert_ne by done.
  apply lookup_insert_eq.
Qed.

Lemma two_pending_no_holder : entries (inst sys_two_pending) !! eh_e h1 = None.
Proof. apply lookup_empty. Qed.

Lemma reachable_two_pending : reachable sys_two_pending.
Proof.
  apply (reach_step sys_h1_pending); [apply reachable_h1_pending|].
  apply (step_register sys_h1_pending h2 false).
  intros h. unfold sys_h1_pending. simpl.
  rewrite dom_insert_L, dom_empty_L, elem_of_union, elem_of_singleton.
  intros [->|Hh]; [done|]. by apply not_elem_of_empty in Hh.
Qed.

Lemma reachable_full : reachable sys_full.
Proof.
  apply (reach_step initial); [apply reach_initial|].
  apply (step_SetMaxEntries initial 0).
Qed.

Lemma full_h1_call : calls sys_full_h1 !! h1 = Some (mkCall Pending true).
Proof. apply lookup_insert_eq. Qed.

Lemma full_h1_cancelled :
  Atomically (waitTx h1 true) (inst sys_full_h1)
  = Committed (Some false) (inst sys_full_h1).
Proof.
  apply (waitTx_not_admitted (inst sys_full_h1) h1 true 0);
    [apply lookup_empty|compute_done|compute_done].
Qed.

Lemma reachable_full_h1 : reachable sys_full_h1.
Proof.
  apply (reach_step sys_full); [apply reachable_full|].
  apply (step_register sys_full h1 true), fresh_in_empty.
Qed.

Lemma reachable_full_h1_decided : reachable sys_full_h1_decided.
Proof.
  apply (reach_step sys_full_h1); [apply reachable_full_h1|].
  apply (step_admission sys_full_h1 h1 true false (inst sys_full_h1));
    [apply full_h1_call|apply full_h1_cancelled].
Qed.

Lemma reachable_full_h1_finished : reachable sys_full_h1_finished.
Proof.
  apply (reach_step sys_full_h1_decided); [apply reachable_full_h1_decided|].
  apply (step_deregister sys_full_h1_decided h1 true false).
  apply lookup_insert_eq.
Qed.

Lemma full_h1_finished_call :
  calls sys_full_h1_finished !! h1 = Some (mkCall (Finished false) true).
Proof. apply lookup_insert_eq. Qed.

Lemma h1_held_holders : entries inst_h1_held !! eh_e h1 = Some {[h1]}.
Proof. compute_done. Qed.

(** ** [Wait] run alone, and the scenarios of the tests *)

(** A run of [Wait] that returns is three steps of the system. *)
Lemma Wait_reachable σ addr now d e r p res i' :
  reachable σ →
  (∀ h, h ∈ dom (calls σ) → eh_addr h ≠ addr) →
  Wait addr now d e r p (inst σ) = WaitReturns res i' →
  ∃ success,
    res = waitResult (newEntryHandle addr e r p now) success
    ∧ reachable (mkSystem i' (<[newEntryHandle addr e r p now
                                 := mkCall (Finished success) d]> (calls σ))).
Proof.
  intros Hreach Hfresh. unfold Wait.
  set (eh := newEntryHandle addr e r p now).
  destruct (Atomically (waitTx eh d) (addWaiter eh (inst σ)))
    as [[success|] i2| |msg] eqn:Htx; try done.
  intros [= <- <-]. exists success. split; [done|].
  set (σ1 := mkSystem (addWaiter eh (inst σ)) (<[eh := mkCall Pending d]> (calls σ))).
  set (σ2 := mkSystem i2 (<[eh := mkCall (Decided success) d]> (calls σ1))).
  assert (reachable σ1) as H1.
  { apply (reach_step σ); [done|]. by apply step_register. }
  assert (reachable σ2) as H2.
  { apply (reach_step σ1); [done|].
    apply (step_admission σ1 eh d success i2); [apply lookup_insert_eq|done]. }
  assert (reachable (mkSystem (waitCleanup eh (inst σ2))
                       (<[eh := mkCall (Finished success) d]> (calls σ2)))) as H3.
  { apply (reach_step σ2); [done|].
    apply (step_deregister σ2 eh d success). apply lookup_insert_eq. }
  subst σ2 σ1. simpl in H3. by rewrite !insert_insert_eq in H3.
Qed.

(** [TestWaitReturnsNilContextCompleted]: capacity 0 and a completed
    context give nil, and no waiter stays behind. *)
Lemma Wait_nil_on_completed_context :
  returned (WaitDefault 1 0 true (entry "0") (SetMaxEntries 0 NewInstance)) = Some None
  ∧ waiters <$> stateAfter (WaitDefault 1 0 true (entry "0") (SetMaxEntries 0 NewInstance))
    = Some ∅.
Proof. split; compute_done. Qed.

(** [TestWaitContextCanceledButRoomForEntry]: with room, the call whose
    context has completed is admitted all the same. *)
Lemma Wait_admitted_on_completed_context :
  returned (WaitDefault 1 0 true (entry "0") (SetMaxEntries 1 NewInstance))
  = Some (Some (newEntryHandle 1 (entry "0") "" 0 0)).
Proof. compute_done. Qed.

(** [TestWaitingForSameEntry]: with capacity 1 and entry "1" held, a call
    for entry "2" blocks, a call for entry "1" returns its handle, and
    once the holder is removed the call for entry "2" returns too. *)
Lemma Wait_capacity_one :
  returned (WaitDefault 2 0 false (entry "2") inst_cap1_held) = None
  ∧ returned (WaitDefault 3 0 false (entry "1") inst_cap1_held)
    = Some (Some (newEntryHandle 3 (entry "1") "" 0 0))
  ∧ returned (WaitDefault 2 0 false (entry "2")
                (remove (newEntryHandle 1 (entry "1") "" 0 0) inst_cap1_held))
    = Some (Some (newEntryHandle 2 (entry "2") "" 0 0)).
Proof. split_and!; compute_done. Qed.

(** ** Admission of a new entry *)

Lemma bucket_elem_is_Some {K} `{Countable K} (m : gmap K entryHandleSet) k h :
  h ∈ bucket m k → is_Some (m !! k).
Proof.
  unfold bucket. destruct (m !! k); [by eexists|]. simpl. set_solver.
Qed.

Lemma pending_registered σ eh d :
  SysInv σ → calls σ !! eh = Some (mkCall Pending d) → eh ∈ waiters (inst σ).
Proof.
  intros Hinv Hc. apply (inv_waiting _ Hinv). by eexists.
Qed.

Lemma waiters_below_top i top :
  RegInv i → First (Iter (waitersByPriority i)) = Some top →
  ∀ h, h ∈ waiters i → eh_priority h <= top.
Proof.
  intros Hreg Hf h Hh. apply (First_Iter_Some _ _ Hf).
  apply (bucket_elem_is_Some _ _ h). by apply (inv_byPriority_waiters _ Hreg).
Qed.

Lemma pending_has_top σ eh d :
  SysInv σ → calls σ !! eh = Some (mkCall Pending d) →
  ∃ top, First (Iter (waitersByPriority (inst σ))) = Some top
         ∧ eh_priority eh <= top.
Proof.
  intros Hinv Hc. pose proof (pending_registered _ _ _ Hinv Hc) as Hw.
  destruct (First (Iter (waitersByPriority (inst σ)))) as [top|] eqn:Hf.
  - exists top. split; [done|].
    by apply (waiters_below_top (inst σ) top (inv_reg _ Hinv) Hf eh).
  - apply First_Iter_None in Hf.
    apply (inv_byPriority_waiters _ (inv_reg _ Hinv)) in Hw.
    unfold bucket in Hw. rewrite Hf, lookup_empty in Hw. set_solver.
Qed.

Lemma addToMapToSet_new {K} `{Countable K} (m : gmap K entryHandleSet) k x :
  m !! k = None → addToMapToSet m k x = <[k := {[x]}]> m.
Proof.
  unfold addToMapToSet. intros ->. f_equal. set_solver.
Qed.

(** C1. A call whose entry has no holder is admitted, as a new entry, only
    when there is room (no limit, or fewer occupied entries than
    [maxEntries]) and its priority is the highest among the registered
    waiters; a registered waiter of strictly higher priority keeps it out
    even when there is room. *)
Theorem Wait_new_entry_fairness σ eh d :
  reachable σ →
  calls σ !! eh = Some (mkCall Pending d) →
  entries (inst σ) !! eh_e eh = None →
  (∀ i', Atomically (waitTx eh d) (inst σ) = Committed (Some true) i' →
         (noMaxEntries (inst σ) = true
          ∨ Z.of_nat (size (entries (inst σ))) < maxEntries (inst σ))
         ∧ eh ∈ waiters (inst σ)
         ∧ (∀ h, h ∈ waiters (inst σ) → eh_priority h <= eh_priority eh)
         ∧ i' = set_entries (<[eh_e eh := {[eh]}]> (entries (inst σ))) (inst σ))
  ∧ ((∃ h, h ∈ waiters (inst σ) ∧ eh_priority eh < eh_priority h) →
     ∀ i', Atomically (waitTx eh d) (inst σ) ≠ Committed (Some true) i').
Proof.
  intros Hreach Hc Hnone. apply reachable_SysInv in Hreach as Hinv.
  assert (∀ i', Atomically (waitTx eh d) (inst σ) = Committed (Some true) i' →
                (noMaxEntries (inst σ) = true
                 ∨ Z.of_nat (size (entries (inst σ))) < maxEntries (inst σ))
                ∧ (∀ h, h ∈ waiters (inst σ) → eh_priority h <= eh_priority eh)
                ∧ i' = set_entries (<[eh_e eh := {[eh]}]> (entries (inst σ))) (inst σ))
    as Hadm.
  { intros i'. rewrite waitTx_eq, Hnone.
    destruct (First (Iter (waitersByPriority (inst σ)))) as [top|] eqn:Hf; [|done].
    destruct (_ && _) eqn:Hcond; [|by destruct d].
    intros [= <-].
    apply andb_true_iff in Hcond as [Hroom Hp].
    apply Z.eqb_eq in Hp. rewrite Hp.
    split; [|split].
    - apply orb_true_iff in Hroom as [?|?%Z.ltb_lt]; auto.
    - apply (waiters_below_top _ _ (inv_reg _ Hinv) Hf).
    - by rewrite addToMapToSet_new. }
  split.
  - intros i' Htx. destruct (Hadm i' Htx) as (? & ? & ?).
    eauto using pending_registered.
  - intros (h & Hh & Hlt) i' Htx. destruct (Hadm i' Htx) as (_ & Hmax & _).
    specialize (Hmax h Hh). lia.
Qed.

(** [h1] alone is admitted; with [h2] registered at priority 5 it is not. *)
Lemma Wait_new_entry_fairness_witness :
  Atomically (waitTx h1 false) (inst sys_h1_pending)
    = Committed (Some true) (inst sys_h1_decided)
  ∧ ((noMaxEntries (inst sys_h1_pending) = true
      ∨ Z.of_nat (size (entries (inst sys_h1_pending))) < maxEntries (inst sys_h1_pending))
     ∧ h1 ∈ waiters (inst sys_h1_pending)
     ∧ (∀ h, h ∈ waiters (inst sys_h1_pending) → eh_priority h <= eh_priority h1))
  ∧ ∀ i', Atomically (waitTx h1 false) (inst sys_two_pending) ≠ Committed (Some true) i'.
Proof.
  split; [exact h1_pending_admitted|]. split.
  - destruct (Wait_new_entry_fairness sys_h1_pending h1 false
                reachable_h1_pending h1_pending_call h1_pending_no_holder)
      as [Hadm _].
    destruct (Hadm _ h1_pending_admitted) as (Hroom & Hw & Hmax & _).
    split_and!; [exact Hroom|exact Hw|exact Hmax].
  - destruct (Wait_new_entry_fairness sys_two_pending h1 false
                reachable_two_pending two_pending_call two_pending_no_holder)
      as [_ Hout].
    apply Hout. exists h2. split; [compute_done|]. simpl. lia.
Defined.

(** X15. The fairness rule is exact: with room and no registered waiter
    of strictly higher priority the pending call gets in. *)
Lemma Wait_new_entry_admits σ eh d :
  reachable σ →
  calls σ !! eh = Some (mkCall Pending d) →
  entries (inst σ) !! eh_e eh = None →
  (noMaxEntries (inst σ) = true
   ∨ Z.of_nat (size (entries (inst σ))) < maxEntries (inst σ)) →
  (∀ h, h ∈ waiters (inst σ) → eh_priority h <= eh_priority eh) →
  Atomically (waitTx eh d) (inst σ) =
  Committed (Some true)
    (set_entries (<[eh_e eh := {[eh]}]> (entries (inst σ))) (inst σ)).
Proof.
  intros Hreach Hc Hnone Hroom Hmax. apply reachable_SysInv in Hreach as Hinv.
  rewrite waitTx_eq, Hnone.
  destruct (pending_has_top _ _ _ Hinv Hc) as (top & Hf & Hle). rewrite Hf.
  assert (eh_priority eh = top) as Hp.
  { apply First_Iter_Some in Hf as [[s Hs] _].
    pose proof (inv_byPriority_noEmpty _ (inv_reg _ Hinv) top) as Hne.
    destruct (set_choose_L s) as [h Hh]; [by intros ->|].
    assert (h ∈ bucket (waitersByPriority (inst σ)) top) as Hb
      by by rewrite (bucket_Some _ _ _ Hs).
    pose proof (inv_byPriority_keyed _ (inv_reg _ Hinv) _ _ Hb) as Hk.
    rewrite <- Hk in Hb.
    apply (inv_byPriority_waiters _ (inv_reg _ Hinv)) in Hb.
    specialize (Hmax h Hb). lia. }
  assert ((noMaxEntries (inst σ)
           || (Z.of_nat (size (entries (inst σ))) <? maxEntries (inst σ)))
          && (eh_priority eh =? top) = true) as ->.
  { apply andb_true_iff. split; [|by apply Z.eqb_eq].
    apply orb_true_iff. destruct Hroom as [?|?%Z.ltb_lt]; auto. }
  by rewrite addToMapToSet_new.
Qed.

(** ** The panic is out of reach *)

(** C6. While a call is pending the by-priority registry is not empty: it
    holds the call's own handle under its own priority, so a top priority
    exists and the admission transaction does not panic. On a registry
    without a top priority the transaction does abort with the panic. *)
Theorem Wait_never_panics σ eh d d' :
  reachable σ →
  calls σ !! eh = Some (mkCall Pending d) →
  eh ∈ bucket (waitersByPriority (inst σ)) (eh_priority eh)
  ∧ waitersByPriority (inst σ) ≠ ∅
  ∧ (∃ top, First (Iter (waitersByPriority (inst σ))) = Some top
            ∧ eh_priority eh <= top)
  ∧ (∀ msg, Atomically (waitTx eh d') (inst σ) ≠ Panicked msg)
  ∧ (∀ i0, entries i0 !! eh_e eh = None → waitersByPriority i0 = ∅ →
           Atomically (waitTx eh d') i0 = Panicked "y u no waiting").
Proof.
  intros Hreach Hc. apply reachable_SysInv in Hreach as Hinv.
  pose proof (pending_registered _ _ _ Hinv Hc) as Hw.
  destruct (pending_has_top _ _ _ Hinv Hc) as (top & Hf & Hle).
  split; [by apply (inv_byPriority_waiters _ (inv_reg _ Hinv))|].
  split; [intros He; apply First_Iter_None in He; congruence|].
  split; [by exists top|].
  split.
  - intros msg.
    destruct (waitTx_cases eh d' (inst σ)) as [Hr|[(Hr&?&?)|[(Hr&?&?)|(Hr&He&?)]]];
      rewrite Hr; try done.
    apply First_Iter_None in He. congruence.
  - intros i0 Hnone He. rewrite waitTx_eq, Hnone.
    apply First_Iter_None in He. by rewrite He.
Qed.

Lemma Wait_never_panics_witness :
  h1 ∈ bucket (waitersByPriority (inst sys_two_pending)) (eh_priority h1)
  ∧ waitersByPriority (inst sys_two_pending) ≠ ∅
  ∧ (∃ top, First (Iter (waitersByPriority (inst sys_two_pending))) = Some top
            ∧ eh_priority h1 <= top)
  ∧ (∀ msg, Atomically (waitTx h1 true) (inst sys_two_pending) ≠ Panicked msg)
  ∧ Atomically (waitTx h1 true) NewInstance = Panicked "y u no waiting".
Proof.
  destruct (Wait_never_panics sys_two_pending h1 false true
              reachable_two_pending two_pending_call) as (H1 & H2 & H3 & H4 & H5).
  split_and!; [exact H1|exact H2|exact H3|exact H4|].
  apply (H5 NewInstance); [apply lookup_empty|reflexivity].
Defined.

(** ** What [Wait] returns *)

Lemma pending_not_held σ eh d :
  SysInv σ → calls σ !! eh = Some (mkCall Pending d) →
  ∀ k, eh ∉ bucket (entries (inst σ)) k.
Proof.
  intros Hinv Hc k Hin.
  destruct (inv_held _ Hinv eh k Hin) as (c & Hc' & Hg).
  rewrite Hc in Hc'. by injection Hc' as <-.
Qed.

Lemma top_is_own_priority σ eh d top :
  SysInv σ → calls σ !! eh = Some (mkCall Pending d) →
  First (Iter (waitersByPriority (inst σ))) = Some top →
  (eh_priority eh = top
   ↔ ∀ h, h ∈ waiters (inst σ) → eh_priority h <= eh_priority eh).
Proof.
  intros Hinv Hc Hf. split.
  - intros Hp h Hh. rewrite Hp.
    by apply (waiters_below_top (inst σ) top (inv_reg _ Hinv) Hf).
  - intros Hmax.
    pose proof (pending_registered _ _ _ Hinv Hc) as Hw.
    pose proof (waiters_below_top (inst σ) top (inv_reg _ Hinv) Hf eh Hw) as Hle.
    apply First_Iter_Some in Hf as [[s Hs] _].
    pose proof (inv_byPriority_noEmpty _ (inv_reg _ Hinv) top) as Hne.
    destruct (set_choose_L s) as [h Hh]; [by intros ->|].
    assert (h ∈ bucket (waitersByPriority (inst σ)) top) as Hb
      by by rewrite (bucket_Some _ _ _ Hs).
    pose proof (inv_byPriority_keyed _ (inv_reg _ Hinv) _ _ Hb) as Hk.
    rewrite <- Hk in Hb.
    apply (inv_byPriority_waiters _ (inv_reg _ Hinv)) in Hb.
    specialize (Hmax h Hb). lia.
Qed.

(** The admission transaction of a pending call is decided by the state
    it starts from: admitted when [admissible], whatever the context;
    otherwise given up when the context is done and blocked when not. *)
Lemma admission_decided σ eh d :
  SysInv σ → calls σ !! eh = Some (mkCall Pending d) →
  (admissible (inst σ) eh
   ∧ Atomically (waitTx eh d) (inst σ)
     = Committed (Some true)
         (set_entries (addToMapToSet (entries (inst σ)) (eh_e eh) eh) (inst σ)))
  ∨ (¬ admissible (inst σ) eh
     ∧ Atomically (waitTx eh d) (inst σ)
       = if d then Committed (Some false) (inst σ) else Blocked).
Proof.
  intros Hinv Hc. rewrite waitTx_eq.
  destruct (entries (inst σ) !! eh_e eh) as [s|] eqn:Hs.
  { left. split; [left; by eexists|].
    by rewrite (fast_path_is_add _ _ _ Hs). }
  destruct (pending_has_top _ _ _ Hinv Hc) as (top & Hf & _). rewrite Hf.
  pose proof (top_is_own_priority _ _ _ _ Hinv Hc Hf) as Htop.
  destruct ((noMaxEntries (inst σ)
             || (Z.of_nat (size (entries (inst σ))) <? maxEntries (inst σ)))
            && (eh_priority eh =? top)) eqn:Hcond.
  - left. split; [|done]. right.
    apply andb_true_iff in Hcond as [Hroom Hp%Z.eqb_eq].
    split; [|by apply Htop].
    apply orb_true_iff in Hroom as [?|?%Z.ltb_lt]; auto.
  - right. split; [|done]. intros [[s' Hs']|[Hroom Hmax]]; [congruence|].
    apply andb_false_iff in Hcond as [Hcond|Hcond].
    + apply orb_false_iff in Hcond as [Hno Hlt%Z.ltb_ge].
      destruct Hroom as [Hroom|Hroom]; [congruence|lia].
    + apply Z.eqb_neq in Hcond. by apply Hcond, Htop.
Qed.

(** C2. [Wait] tests admission before it looks at the context.
    For a pending call in a reachable state the admission transaction
    never panics and is decided by the state it runs on: if the handle
    is admissible (its entry has a holder, or there is room and no
    registered waiter of higher priority) it is admitted and [Wait]
    hands back the handle it built, also when the context has completed;
    if it is not admissible the transaction gives up on a completed
    context, leaving the state as it was, and blocks otherwise. So when
    [Wait] returns, it returns nil exactly when the context had completed
    and the handle was not admissible, and otherwise the handle, which is
    then a holder of its entry. *)
Theorem Wait_nil_iff_cancelled_unadmissible σ eh d :
  reachable σ →
  calls σ !! eh = Some (mkCall Pending d) →
  (∀ msg, Atomically (waitTx eh d) (inst σ) ≠ Panicked msg)
  ∧ (admissible (inst σ) eh →
     Atomically (waitTx eh d) (inst σ)
     = Committed (Some true)
         (set_entries (addToMapToSet (entries (inst σ)) (eh_e eh) eh) (inst σ)))
  ∧ (¬ admissible (inst σ) eh → d = true →
     Atomically (waitTx eh d) (inst σ) = Committed (Some false) (inst σ))
  ∧ (¬ admissible (inst σ) eh → d = false →
     Atomically (waitTx eh d) (inst σ) = Blocked)
  ∧ ∀ r i', Atomically (waitTx eh d) (inst σ) = Committed r i' →
      ∃ success, r = Some success
        ∧ (waitResult eh success = None
           ↔ d = true ∧ ¬ admissible (inst σ) eh)
        ∧ (waitResult eh success = None →
           i' = inst σ ∧ ∀ k, eh ∉ bucket (entries i') k)
        ∧ (waitResult eh success ≠ None →
           waitResult eh success = Some eh
           ∧ eh ∈ bucket (entries i') (eh_e eh)).
Proof.
  intros Hreach Hc. apply reachable_SysInv in Hreach as Hinv.
  pose proof (pending_not_held _ _ _ Hinv Hc) as Hout.
  assert (eh ∈ bucket (addToMapToSet (entries (inst σ)) (eh_e eh) eh) (eh_e eh))
    as Hin.
  { rewrite bucket_addToMapToSet. case_decide; [set_solver|done]. }
  destruct (admission_decided _ _ _ Hinv Hc) as [[Hadm Htx]|[Hnadm Htx]];
    rewrite Htx.
  - split_and!; [done|done|done|done|].
    intros r i' [= <- <-]. exists true. simpl.
    split_and!; [done| |done|done].
    split; [done|]. by intros [_ ?].
  - split_and!.
    + by destruct d.
    + done.
    + by intros _ ->.
    + by intros _ ->.
    + intros r i' Hr. destruct d; [|done]. injection Hr as <- <-.
      exists false. simpl. split_and!; [done|done|done|done].
Qed.

Lemma h1_pending_done_call :
  calls sys_h1_pending_done !! h1 = Some (mkCall Pending true).
Proof. apply lookup_insert_eq. Qed.

Lemma reachable_h1_pending_done : reachable sys_h1_pending_done.
Proof.
  apply (reach_step initial); [apply reach_initial|].
  apply (step_register initial h1 true), fresh_in_empty.
Qed.

Lemma h1_pending_done_admissible : admissible (inst sys_h1_pending_done) h1.
Proof.
  right. split; [right; compute_done|].
  intros h Hh. simpl in Hh.
  assert (h = h1) as -> by set_solver. done.
Qed.

Lemma full_h1_not_admissible : ¬ admissible (inst sys_full_h1) h1.
Proof.
  intros [[s Hs]|[[Hno|Hlt] _]].
  - simpl in Hs. by rewrite lookup_empty in Hs.
  - discriminate Hno.
  - revert Hlt. compute_done.
Qed.

(** With capacity 0 the call whose context is done gets nil; with room
    the call whose context is done gets its handle. *)
Lemma Wait_nil_iff_cancelled_unadmissible_witness :
  Atomically (waitTx h1 true) (inst sys_full_h1)
  = Committed (Some false) (inst sys_full_h1)
  ∧ (waitResult h1 false = None
     ↔ true = true ∧ ¬ admissible (inst sys_full_h1) h1)
  ∧ Atomically (waitTx h1 true) (inst sys_h1_pending_done)
    = Committed (Some true)
        (set_entries (addToMapToSet (entries (inst sys_h1_pending_done)) (eh_e h1) h1)
                     (inst sys_h1_pending_done))
  ∧ (waitResult h1 true = None
     ↔ true = true ∧ ¬ admissible (inst sys_h1_pending_done) h1).
Proof.
  destruct (Wait_nil_iff_cancelled_unadmissible sys_full_h1 h1 true
              reachable_full_h1 full_h1_call) as (_ & _ & Hnil & _ & Hret).
  pose proof (Hnil full_h1_not_admissible eq_refl) as Htx.
  destruct (Hret _ _ Htx) as (success & [= <-] & Hiff & _).
  destruct (Wait_nil_iff_cancelled_unadmissible sys_h1_pending_done h1 true
              reachable_h1_pending_done h1_pending_done_call)
    as (_ & Hadm & _ & _ & Hret').
  pose proof (Hadm h1_pending_done_admissible) as Htx'.
  destruct (Hret' _ _ Htx') as (success' & [= <-] & Hiff' & _).
  split_and!; [exact Htx|exact Hiff|exact Htx'|exact Hiff'].
Defined.

(** A completed context does not by itself give nil: here the context
    has completed before [Wait] is called, hence before any admission,
    and there is room; [Wait] returns its handle, not nil. *)
Lemma Wait_nil_iff_context_completed_counterexample :
  returned (WaitDefault 1 0 true (entry "0") (SetMaxEntries 1 NewInstance))
  = Some (Some (newEntryHandle 1 (entry "0") "" 0 0))
  ∧ ¬ (∀ addr now ctxDone e i,
         ctxDone = true ↔ returned (WaitDefault addr now ctxDone e i) = Some None).
Proof.
  assert (returned (WaitDefault 1 0 true (entry "0") (SetMaxEntries 1 NewInstance))
          = Some (Some (newEntryHandle 1 (entry "0") "" 0 0))) as Hret
    by compute_done.
  split; [exact Hret|]. intros Hall.
  destruct (Hall 1%positive 0 true (entry "0") (SetMaxEntries 1 NewInstance))
    as [Hnil _].
  specialize (Hnil eq_refl). rewrite Hret in Hnil. discriminate Hnil.
Qed.

(** X16. After [Wait] has returned nil, its context had completed and
    its handle holds no entry, then and in every later state. *)
Lemma Wait_nil_cancelled σ eh d :
  reachable σ →
  calls σ !! eh = Some (mkCall (Finished false) d) →
  d = true ∧ ∀ k, eh ∉ bucket (entries (inst σ)) k.
Proof.
  intros Hreach Hc. apply reachable_SysInv in Hreach as Hinv. split.
  - apply (inv_cancelled _ Hinv eh _ Hc). by right.
  - intros k Hin. destruct (inv_held _ Hinv eh k Hin) as (c & Hc' & Hg).
    rewrite Hc in Hc'. by injection Hc' as <-.
Qed.

(** ** Deregistration *)

Lemma not_waiting_deregistered i h :
  RegInv i → h ∉ waiters i → deregistered i h.
Proof.
  intros Hreg Hw. split_and!; [done|..].
  - apply (keyed_not_elem eh_priority); [apply Hreg|].
    by rewrite <- (inv_byPriority_waiters _ Hreg).
  - apply (keyed_not_elem eh_reason); [apply Hreg|].
    by rewrite <- (inv_byReason_waiters _ Hreg).
  - apply (keyed_not_elem eh_e); [apply Hreg|].
    by rewrite <- (inv_byEntry_waiters _ Hreg).
Qed.

(** C3. Once [Wait] has returned, with a handle or with nil, the handle it
    built is in none of the four waiter registries; this holds from the
    deregistering transaction on. *)
Theorem Wait_deregisters σ eh success d :
  reachable σ →
  calls σ !! eh = Some (mkCall (Finished success) d) →
  deregistered (inst σ) eh.
Proof.
  intros Hreach Hc. apply reachable_SysInv in Hreach as Hinv.
  apply not_waiting_deregistered; [apply Hinv|].
  rewrite (inv_waiting _ Hinv). intros (c & Hc' & Hr).
  rewrite Hc in Hc'. by injection Hc' as <-.
Qed.

Lemma Wait_deregisters_witness :
  deregistered (inst sys_h1_finished) h1
  ∧ deregistered (inst sys_full_h1_finished) h1.
Proof.
  split.
  - exact (Wait_deregisters sys_h1_finished h1 true false
             reachable_h1_finished h1_finished_call).
  - exact (Wait_deregisters sys_full_h1_finished h1 false true
             reachable_full_h1_finished full_h1_finished_call).
Defined.

(** The deregistering transaction itself, on any state that satisfies the
    registry invariant. *)
Lemma waitCleanup_deregisters i eh :
  RegInv i → deregistered (waitCleanup eh i) eh.
Proof.
  intros Hreg. apply not_waiting_deregistered; [by apply RegInv_waitCleanup|].
  rewrite waitCleanup_eq. simpl. set_solver.
Qed.

(** The same for a whole run of [Wait] from a reachable state. *)
Lemma Wait_alone_deregisters σ addr now d e r p res i' :
  reachable σ →
  (∀ h, h ∈ dom (calls σ) → eh_addr h ≠ addr) →
  Wait addr now d e r p (inst σ) = WaitReturns res i' →
  deregistered i' (newEntryHandle addr e r p now).
Proof.
  intros Hreach Hfresh Hrun.
  destruct (Wait_reachable _ _ _ _ _ _ _ _ _ Hreach Hfresh Hrun) as (b & _ & Hr).
  apply reachable_SysInv in Hr as Hinv.
  apply (not_waiting_deregistered i'); [apply Hinv|].
  rewrite (inv_waiting _ Hinv). simpl. intros (c & Hc & Hreg).
  rewrite lookup_insert_eq in Hc. by injection Hc as <-.
Qed.

(** ** Sharing an occupied entry *)

(** C4. When the requested entry has holders, the admission transaction
    adds the handle to them and returns [true] at once, whatever the
    capacity variables, the waiter registries and the context say; the
    number of occupied entries does not change. *)
Theorem Wait_shares_occupied_entry i eh d s :
  entries i !! eh_e eh = Some s →
  Atomically (waitTx eh d) i =
    Committed (Some true) (set_entries (<[eh_e eh := s ∪ {[eh]}]> (entries i)) i)
  ∧ waitResult eh true = Some eh
  ∧ size (<[eh_e eh := s ∪ {[eh]}]> (entries i)) = size (entries i).
Proof.
  intros Hs. rewrite waitTx_eq, Hs. split_and!; [done|done|].
  rewrite <- !(size_dom (D := gset Entry)).
  f_equal. apply dom_insert_lookup_L. by eexists.
Qed.

Lemma Wait_shares_occupied_entry_witness :
  Atomically (waitTx h3 true) (SetMaxEntries 0 inst_h1_held) =
    Committed (Some true)
      (set_entries (<[eh_e h3 := {[h1]} ∪ {[h3]}]> (entries (SetMaxEntries 0 inst_h1_held)))
                   (SetMaxEntries 0 inst_h1_held))
  ∧ waitResult h3 true = Some h3
  ∧ size (<[eh_e h3 := {[h1]} ∪ {[h3]}]> (entries (SetMaxEntries 0 inst_h1_held)))
    = size (entries (SetMaxEntries 0 inst_h1_held)).
Proof.
  assert (entries (SetMaxEntries 0 inst_h1_held) !! eh_e h3 = Some {[h1]}) as Hs
    by compute_done.
  exact (Wait_shares_occupied_entry (SetMaxEntries 0 inst_h1_held) h3 true {[h1]} Hs).
Defined.

(** A completed context does not keep a call out when there is room. *)
Lemma Wait_done_context_with_room :
  Atomically (waitTx h1 true) (addWaiter h1 NewInstance) =
  Committed (Some true)
    (set_entries (addToMapToSet (entries (addWaiter h1 NewInstance)) (eh_e h1) h1)
                 (addWaiter h1 NewInstance)).
Proof.
  apply (waitTx_admits_new (addWaiter h1 NewInstance) h1 true 0);
    [apply lookup_empty|compute_done|compute_done].
Qed.

(** ** The four registries move together *)

Lemma registriesAgree_NewInstance : registriesAgree NewInstance.
Proof.
  intros h. simpl. unfold bucket. rewrite !lookup_empty. set_solver.
Qed.

Lemma registriesAgree_addWaiter eh i :
  registriesAgree i → registriesAgree (addWaiter eh i).
Proof.
  intros Hag h. rewrite addWaiter_eq. simpl.
  destruct (decide (h = eh)) as [->|Hne].
  - split; [intros _|set_solver].
    split_and!; [apply (elem_bucket_add_eq eh_priority)
                |apply (elem_bucket_add_eq eh_reason)
                |apply (elem_bucket_add_eq eh_e)].
  - rewrite (elem_bucket_add_ne eh_priority), (elem_bucket_add_ne eh_reason),
      (elem_bucket_add_ne eh_e), <- (Hag h) by done.
    set_solver.
Qed.

Lemma registriesAgree_waitCleanup eh i :
  registriesAgree i → registriesAgree (waitCleanup eh i).
Proof.
  intros Hag h. rewrite waitCleanup_eq. simpl.
  destruct (decide (h = eh)) as [->|Hne].
  - split; [set_solver|]. intros (Hp & _ & _).
    by destruct (elem_bucket_delete_eq eh_priority (waitersByPriority i) eh).
  - rewrite (elem_bucket_delete_ne eh_priority), (elem_bucket_delete_ne eh_reason),
      (elem_bucket_delete_ne eh_e), <- (Hag h) by done.
    set_solver.
Qed.

Lemma RegInv_registriesAgree i : RegInv i → registriesAgree i.
Proof.
  intros Hreg h. split.
  - intros Hw. split_and!.
    + by apply (inv_byPriority_waiters _ Hreg).
    + by apply (inv_byReason_waiters _ Hreg).
    + by apply (inv_byEntry_waiters _ Hreg).
  - intros (Hp & _ & _). by apply (inv_byPriority_waiters _ Hreg).
Qed.

(** C5. In every reachable state a handle is in the flat waiter set
    exactly when it is in the bucket of its priority, of its reason and of
    its entry. [addWaiter] and the deregistering transaction each write
    the four registries in one transaction and keep that agreement, from
    any state that has it: the handle is in all four after the one and in
    none of its buckets after the other. *)
Theorem registries_updated_together σ i eh :
  reachable σ →
  registriesAgree i →
  registriesAgree (inst σ)
  ∧ (registriesAgree (addWaiter eh i)
     ∧ eh ∈ waiters (addWaiter eh i)
     ∧ eh ∈ bucket (waitersByPriority (addWaiter eh i)) (eh_priority eh)
     ∧ eh ∈ bucket (waitersByReason (addWaiter eh i)) (eh_reason eh)
     ∧ eh ∈ bucket (waitersByEntry (addWaiter eh i)) (eh_e eh))
  ∧ (registriesAgree (waitCleanup eh i)
     ∧ (eh ∉ waiters (waitCleanup eh i))
     ∧ (eh ∉ bucket (waitersByPriority (waitCleanup eh i)) (eh_priority eh))
     ∧ (eh ∉ bucket (waitersByReason (waitCleanup eh i)) (eh_reason eh))
     ∧ (eh ∉ bucket (waitersByEntry (waitCleanup eh i)) (eh_e eh))).
Proof.
  intros Hreach Hag. split_and!.
  - by apply RegInv_registriesAgree, reachable_SysInv.
  - by apply registriesAgree_addWaiter.
  - rewrite addWaiter_eq. simpl. set_solver.
  - apply (elem_bucket_add_eq eh_priority).
  - apply (elem_bucket_add_eq eh_reason).
  - apply (elem_bucket_add_eq eh_e).
  - by apply registriesAgree_waitCleanup.
  - rewrite waitCleanup_eq. simpl. set_solver.
  - apply (elem_bucket_delete_eq eh_priority).
  - apply (elem_bucket_delete_eq eh_reason).
  - apply (elem_bucket_delete_eq eh_e).
Qed.

Lemma registries_updated_together_witness :
  registriesAgree (inst sys_two_pending)
  ∧ registriesAgree (addWaiter h2 NewInstance)
  ∧ h2 ∈ waiters (addWaiter h2 NewInstance)
  ∧ registriesAgree (waitCleanup h2 NewInstance).
Proof.
  destruct (registries_updated_together sys_two_pending NewInstance h2
              reachable_two_pending registriesAgree_NewInstance)
    as (Hs & (Ha & Hin & _) & (Hd & _)).
  split_and!; [exact Hs|exact Ha|exact Hin|exact Hd].
Defined.

(** ** Capacity configuration *)

(** C7. [SetMaxEntries] and [SetNoMaxEntries] write the capacity variables
    only: the entries table and the four registries are as before. A
    limit at or below the number of occupied entries evicts nobody; it
    keeps calls for new entries out, and calls for occupied entries still
    get in. *)
Theorem capacity_changes_evict_nobody max i eh d :
  (entries (SetMaxEntries max i) = entries i
   ∧ waitersByPriority (SetMaxEntries max i) = waitersByPriority i
   ∧ waitersByReason (SetMaxEntries max i) = waitersByReason i
   ∧ waitersByEntry (SetMaxEntries max i) = waitersByEntry i
   ∧ waiters (SetMaxEntries max i) = waiters i)
  ∧ (entries (SetNoMaxEntries i) = entries i
     ∧ waitersByPriority (SetNoMaxEntries i) = waitersByPriority i
     ∧ waitersByReason (SetNoMaxEntries i) = waitersByReason i
     ∧ waitersByEntry (SetNoMaxEntries i) = waitersByEntry i
     ∧ waiters (SetNoMaxEntries i) = waiters i
     ∧ maxEntries (SetNoMaxEntries i) = maxEntries i)
  ∧ (max <= Z.of_nat (size (entries i)) →
     entries i !! eh_e eh = None →
     ∀ i', Atomically (waitTx eh d) (SetMaxEntries max i) ≠ Committed (Some true) i')
  ∧ (∀ s, entries i !! eh_e eh = Some s →
          Atomically (waitTx eh d) (SetMaxEntries max i) =
          Committed (Some true)
            (set_entries (<[eh_e eh := s ∪ {[eh]}]> (entries i)) (SetMaxEntries max i))).
Proof.
  split_and!; try done.
  - intros Hmax Hnone i'. rewrite waitTx_eq. simpl. rewrite Hnone.
    destruct (First (Iter (waitersByPriority i))); [|done].
    assert ((Z.of_nat (size (entries i)) <? max) = false) as ->
      by by apply Z.ltb_ge.
    simpl. by destruct d.
  - intros s Hs. rewrite waitTx_eq. simpl. by rewrite Hs.
Qed.

Lemma capacity_changes_evict_nobody_witness :
  entries (SetMaxEntries 0 inst_h1_held) = entries inst_h1_held
  ∧ (∀ i', Atomically (waitTx h2 false) (SetMaxEntries 0 (addWaiter h2 inst_h1_held))
           ≠ Committed (Some true) i')
  ∧ Atomically (waitTx h3 false) (SetMaxEntries 1 inst_h1_held) =
    Committed (Some true)
      (set_entries (<[eh_e h3 := {[h1]} ∪ {[h3]}]> (entries inst_h1_held))
                   (SetMaxEntries 1 inst_h1_held)).
Proof.
  destruct (capacity_changes_evict_nobody 0 inst_h1_held h1 false)
    as ((He & _) & _).
  destruct (capacity_changes_evict_nobody 0 (addWaiter h2 inst_h1_held) h2 false)
    as (_ & _ & Hout & _).
  destruct (capacity_changes_evict_nobody 1 inst_h1_held h3 false)
    as (_ & _ & _ & Hshare).
  split_and!; [exact He|apply Hout; [lia|compute_done]|apply Hshare; compute_done].
Defined.

(** C9. [SetMaxEntries] clears [noMaxEntries] in the transaction that
    writes [maxEntries], so after [SetNoMaxEntries] it puts the finite
    limit back: the next admission check has room exactly when fewer
    than [max] entries are occupied. *)
Theorem SetMaxEntries_reenables_limit max i :
  SetMaxEntries max i =
    commit (R := unit) (tx_Set set_noMaxEntries false >> tx_Set set_maxEntries max) i
  ∧ noMaxEntries (SetMaxEntries max i) = false
  ∧ maxEntries (SetMaxEntries max i) = max
  ∧ noMaxEntries (SetNoMaxEntries i) = true
  ∧ noMaxEntries (SetMaxEntries max (SetNoMaxEntries i)) = false
  ∧ maxEntries (SetMaxEntries max (SetNoMaxEntries i)) = max
  ∧ haveRoom (noMaxEntries (SetMaxEntries max (SetNoMaxEntries i)))
             (entries (SetMaxEntries max (SetNoMaxEntries i)))
             (maxEntries (SetMaxEntries max (SetNoMaxEntries i)))
    = (Z.of_nat (size (entries i)) <? max).
Proof. by split_and!. Qed.

(** ** Release *)

Lemma set_entries_id i : set_entries (entries i) i = i.
Proof. by destruct i. Qed.

Lemma set_entries_twice es es' i :
  set_entries es (set_entries es' i) = set_entries es i.
Proof. done. Qed.

Lemma size_deleteFromMapToSet {K} `{Countable K} (m : gmap K entryHandleSet) k x :
  (size m ≤ S (size (deleteFromMapToSet m k x).1))%nat.
Proof.
  unfold deleteFromMapToSet. destruct (m !! k) as [s|] eqn:Hk; simpl; [|lia].
  destruct (Z.of_nat (size (s ∖ {[x]})) =? 0); simpl.
  - rewrite map_size_delete, Hk. lia.
  - rewrite map_size_insert, Hk. simpl. lia.
Qed.

(** C8. The first removal of a handle takes it out of the holders of its
    entry and leaves every other holder and every other entry in place;
    the entry is freed, and the entry count goes down by one, exactly
    when the handle was its last holder. Removing the handle a second
    time changes nothing: [remove] after [remove] is [remove], so two
    removals free the same single entry that one removal frees. With the
    key absent [deleteFromMapToSet] hands the map back, and a set
    without the element is left as it is. The capacity variables are
    not touched. *)
Theorem remove_idempotent eh i :
  bucket (entries (remove eh i)) (eh_e eh) = bucket (entries i) (eh_e eh) ∖ {[eh]}
  ∧ (eh ∉ bucket (entries (remove eh i)) (eh_e eh))
  ∧ (∀ e, e ≠ eh_e eh → entries (remove eh i) !! e = entries i !! e)
  ∧ (∀ s, entries i !! eh_e eh = Some s → s ∖ {[eh]} = ∅ →
       entries (remove eh i) !! eh_e eh = None
       ∧ S (size (entries (remove eh i))) = size (entries i)
       ∧ S (size (entries (remove eh (remove eh i)))) = size (entries i))
  ∧ (∀ s, entries i !! eh_e eh = Some s → s ∖ {[eh]} ≠ ∅ →
       entries (remove eh i) !! eh_e eh = Some (s ∖ {[eh]})
       ∧ size (entries (remove eh i)) = size (entries i)
       ∧ size (entries (remove eh (remove eh i))) = size (entries i))
  ∧ maxEntries (remove eh i) = maxEntries i
  ∧ noMaxEntries (remove eh i) = noMaxEntries i
  ∧ remove eh (remove eh i) = remove eh i
  ∧ size (entries (remove eh (remove eh i))) = size (entries (remove eh i))
  ∧ (size (entries i) ≤ S (size (entries (remove eh i))))%nat
  ∧ (entries i !! eh_e eh = None →
     deleteFromMapToSet (entries i) (eh_e eh) eh = (entries i, true)
     ∧ remove eh i = i)
  ∧ (∀ s : entryHandleSet, eh ∉ s → s ∖ {[eh]} = s)
  ∧ (∀ s, entries i !! eh_e eh = Some s → eh ∉ s → s ≠ ∅ → remove eh i = i).
Proof.
  assert (remove eh (remove eh i) = remove eh i) as Hidem.
  { rewrite !remove_eq. simpl.
    by rewrite set_entries_twice, deleteFromMapToSet_twice. }
  assert (bucket (entries (remove eh i)) (eh_e eh)
          = bucket (entries i) (eh_e eh) ∖ {[eh]}) as Hb.
  { rewrite remove_eq. simpl.
    by rewrite bucket_deleteFromMapToSet, decide_True. }
  split_and!.
  - exact Hb.
  - rewrite Hb. set_solver.
  - intros e Hne. rewrite remove_eq. simpl. unfold deleteFromMapToSet.
    destruct (entries i !! eh_e eh) as [s|]; simpl; [|done].
    destruct (_ =? 0); simpl.
    + by rewrite lookup_delete_ne.
    + by rewrite lookup_insert_ne.
  - intros s Hs He. rewrite Hidem, remove_eq. simpl. unfold deleteFromMapToSet.
    rewrite Hs, He, size_empty. simpl.
    split; [apply lookup_delete_eq|].
    rewrite map_size_delete, Hs.
    assert (size (entries i) ≠ 0%nat) as Hpos.
    { intros Hz%map_size_empty_iff. by rewrite Hz, lookup_empty in Hs. }
    lia.
  - intros s Hs Hne. rewrite Hidem, remove_eq. simpl. unfold deleteFromMapToSet.
    rewrite Hs.
    destruct (Z.of_nat (size (s ∖ {[eh]})) =? 0) eqn:Hz.
    { by apply size_zero_empty in Hz. }
    simpl. split; [apply lookup_insert_eq|].
    rewrite map_size_insert, Hs. done.
  - by rewrite remove_eq.
  - by rewrite remove_eq.
  - exact Hidem.
  - by rewrite Hidem.
  - rewrite remove_eq. simpl. apply size_deleteFromMapToSet.
  - intros Hnone. split; [by apply deleteFromMapToSet_absent|].
    rewrite remove_eq, deleteFromMapToSet_absent by done. apply set_entries_id.
  - intros s Hs. set_solver.
  - intros s Hs Hnin Hne. rewrite remove_eq. unfold deleteFromMapToSet.
    rewrite Hs. assert (s ∖ {[eh]} = s) as -> by set_solver.
    destruct (Z.of_nat (size s) =? 0) eqn:Hz.
    + by apply size_zero_empty in Hz.
    + simpl. by rewrite insert_id, set_entries_id.
Qed.

Lemma h1_h3_held_holders : entries inst_h1_h3_held !! eh_e h1 = Some {[h1; h3]}.
Proof. compute_done. Qed.

Lemma h3_alone_holders :
  entries (remove h1 inst_h1_h3_held) !! eh_e h3 = Some {[h3]}.
Proof. compute_done. Qed.

(** Entry "1" shared by [h1] and [h3]: removing [h1] leaves [h3] its
    holder and the entry occupied, removing [h1] again changes nothing,
    and removing [h3] then frees the entry. Entry "1" held by [h1]
    alone: the first removal frees it, the second finds the key absent. *)
Lemma remove_idempotent_witness :
  entries (remove h1 inst_h1_h3_held) !! eh_e h1 = Some ({[h1; h3]} ∖ {[h1]})
  ∧ (h1 ∉ bucket (entries (remove h1 inst_h1_h3_held)) (eh_e h1))
  ∧ size (entries (remove h1 inst_h1_h3_held)) = size (entries inst_h1_h3_held)
  ∧ remove h1 (remove h1 inst_h1_h3_held) = remove h1 inst_h1_h3_held
  ∧ entries (remove h3 (remove h1 inst_h1_h3_held)) !! eh_e h3 = None
  ∧ S (size (entries (remove h3 (remove h1 inst_h1_h3_held))))
    = size (entries inst_h1_h3_held)
  ∧ size (entries inst_h1_held) = 1%nat
  ∧ S (size (entries (remove h1 inst_h1_held))) = size (entries inst_h1_held)
  ∧ S (size (entries (remove h1 (remove h1 inst_h1_held))))
    = size (entries inst_h1_held)
  ∧ deleteFromMapToSet (entries (remove h1 inst_h1_held)) (eh_e h1) h1
    = (entries (remove h1 inst_h1_held), true).
Proof.
  destruct (remove_idempotent h1 inst_h1_h3_held)
    as (_ & Hout & _ & _ & Hshared & _ & _ & Hidem & _).
  destruct (Hshared _ h1_h3_held_holders) as (Hleft & Hsize & _);
    [compute_done|].
  destruct (remove_idempotent h3 (remove h1 inst_h1_h3_held))
    as (_ & _ & _ & Hlast & _).
  destruct (Hlast _ h3_alone_holders) as (Hfree & Hsize3 & _); [compute_done|].
  destruct (remove_idempotent h1 inst_h1_held) as (_ & _ & _ & Hlast1 & _).
  destruct (Hlast1 _ h1_held_holders) as (Hfree1 & Hsize1 & Hsize1'); [compute_done|].
  destruct (remove_idempotent h1 (remove h1 inst_h1_held))
    as (_ & _ & _ & _ & _ & _ & _ & _ & _ & _ & Habs & _).
  split_and!;
    [exact Hleft|exact Hout|exact Hsize|exact Hidem|exact Hfree
    |by rewrite Hsize3, Hsize|compute_done|exact Hsize1|exact Hsize1'|].
  apply Habs. exact Hfree1.
Defined.

(** X17. In the running system: once a removal of a handle has fired,
    every later removal of it leaves the instance as it is, whatever
    happened in between. *)
Lemma removal_after_first_is_noop σ eh d :
  reachable σ →
  calls σ !! eh = Some (mkCall Removed d) →
  remove eh (inst σ) = inst σ.
Proof.
  intros Hreach Hc. apply reachable_SysInv in Hreach as Hinv.
  rewrite remove_eq, deleteFromMapToSet_not_elem, set_entries_id; [done|..].
  - apply (inv_entries_noEmpty _ (inv_reg _ Hinv)).
  - intros Hin. destruct (inv_held _ Hinv eh _ Hin) as (c & Hc' & Hg).
    rewrite Hc in Hc'. by injection Hc' as <-.
Qed.

(** ** No empty bucket *)

Lemma noEmpty_occupied es : noEmpty es → occupied es = es.
Proof.
  intros Hne. apply map_filter_id. intros k s Hs. simpl. intros ->.
  by apply (Hne k).
Qed.

(** C10. In every reachable state no key of the entries table or of the
    three keyed registries is mapped to the empty set, so the length the
    capacity check reads is the number of entries with a holder.
    [addToMapToSet] and [deleteFromMapToSet] keep it so: the one files
    the element under the key, the other drops the key with its last
    element. *)
Theorem no_empty_buckets σ :
  reachable σ →
  noEmpty (entries (inst σ))
  ∧ noEmpty (waitersByPriority (inst σ))
  ∧ noEmpty (waitersByReason (inst σ))
  ∧ noEmpty (waitersByEntry (inst σ))
  ∧ Z.of_nat (size (entries (inst σ))) = Z.of_nat (size (occupied (entries (inst σ))))
  ∧ (∀ e x, noEmpty (addToMapToSet (entries (inst σ)) e x)
            ∧ x ∈ bucket (addToMapToSet (entries (inst σ)) e x) e)
  ∧ (∀ e x, noEmpty (deleteFromMapToSet (entries (inst σ)) e x).1)
  ∧ (∀ e x, entries (inst σ) !! e = Some {[x]} →
            deleteFromMapToSet (entries (inst σ)) e x
            = (delete e (entries (inst σ)), true)).
Proof.
  intros Hreach. apply reachable_SysInv in Hreach as [Hreg _ _ _].
  pose proof Hreg as [].
  split_and!; try done.
  - by rewrite noEmpty_occupied.
  - intros e x. split; [by apply noEmpty_addToMapToSet|].
    rewrite bucket_addToMapToSet, decide_True by done. set_solver.
  - intros e x. by apply noEmpty_deleteFromMapToSet.
  - intros e x Hs. unfold deleteFromMapToSet. rewrite Hs.
    assert (({[x]} : entryHandleSet) ∖ {[x]} = ∅) as -> by set_solver.
    by rewrite size_empty.
Qed.

Lemma no_empty_buckets_witness :
  noEmpty (entries (inst sys_h1_removed))
  ∧ noEmpty (waitersByPriority (inst sys_two_pending))
  ∧ Z.of_nat (size (entries (inst sys_h1_finished)))
    = Z.of_nat (size (occupied (entries (inst sys_h1_finished))))
  ∧ deleteFromMapToSet (entries (inst sys_h1_finished)) (eh_e h1) h1
    = (delete (eh_e h1) (entries (inst sys_h1_finished)), true).
Proof.
  destruct (no_empty_buckets sys_h1_removed reachable_h1_removed) as (H1 & _).
  destruct (no_empty_buckets sys_two_pending reachable_two_pending) as (_ & H2 & _).
  destruct (no_empty_buckets sys_h1_finished reachable_h1_finished)
    as (_ & _ & _ & _ & H3 & _ & _ & H4).
  split_and!; [exact H1|exact H2|exact H3|].
  apply H4. compute_done.
Defined.

(** * Further properties of the code *)

(** ** The two map-to-set helpers against each other *)

Section MapToSetRoundTrips.
Context {K : Type} {EqK : EqDecision K} {CountK : Countable K}.
Implicit Types (m : gmap K entryHandleSet) (k : K) (x : EntryHandle).

Lemma lookup_eq_bucket m1 m2 k :
  m1 !! k ≠ Some ∅ → m2 !! k ≠ Some ∅ → bucket m1 k = bucket m2 k →
  m1 !! k = m2 !! k.
Proof.
  unfold bucket. destruct (m1 !! k) as [s1|], (m2 !! k) as [s2|]; simpl;
    intros H1 H2 Hb; subst; try done.
Qed.

Lemma deleteFromMapToSet_nonempty m k x :
  (deleteFromMapToSet m k x).1 !! k ≠ Some ∅.
Proof.
  unfold deleteFromMapToSet. destruct (m !! k) as [s0|] eqn:Hk.
  - destruct (Z.of_nat (size (s0 ∖ {[x]})) =? 0) eqn:Hz; simpl.
    + by rewrite lookup_delete_eq.
    + rewrite lookup_insert_eq. intros [= Hs].
      rewrite Hs, size_empty in Hz. discriminate.
  - simpl. by rewrite Hk.
Qed.

Lemma addToMapToSet_nonempty m k x : addToMapToSet m k x !! k ≠ Some ∅.
Proof.
  unfold addToMapToSet. rewrite lookup_insert_eq.
  intros [= Hs]. destruct (m !! k); set_solver.
Qed.

Lemma deleteFromMapToSet_other m k x k' :
  k' ≠ k → (deleteFromMapToSet m k x).1 !! k' = m !! k'.
Proof.
  intros Hne. unfold deleteFromMapToSet.
  destruct (m !! k) as [s0|]; simpl; [|done].
  destruct (_ =? 0); simpl.
  - by rewrite lookup_delete_ne.
  - by rewrite lookup_insert_ne.
Qed.

Lemma addToMapToSet_other m k x k' :
  k' ≠ k → addToMapToSet m k x !! k' = m !! k'.
Proof. intros Hne. unfold addToMapToSet. by rewrite lookup_insert_ne. Qed.

Lemma delete_add_id m k x :
  x ∉ bucket m k → m !! k ≠ Some ∅ →
  (deleteFromMapToSet (addToMapToSet m k x) k x).1 = m.
Proof.
  intros Hx Hne. apply map_eq. intros k'.
  destruct (decide (k' = k)) as [->|Hk'].
  - apply lookup_eq_bucket; [apply deleteFromMapToSet_nonempty|done|].
    rewrite bucket_deleteFromMapToSet, decide_True by done.
    rewrite bucket_addToMapToSet, decide_True by done. set_solver.
  - by rewrite deleteFromMapToSet_other, addToMapToSet_other.
Qed.

Lemma add_delete_id m k x :
  x ∈ bucket m k → addToMapToSet (deleteFromMapToSet m k x).1 k x = m.
Proof.
  intros Hx. apply map_eq. intros k'.
  destruct (decide (k' = k)) as [->|Hk'].
  - apply lookup_eq_bucket; [apply addToMapToSet_nonempty| |].
    + intros Hs. rewrite (bucket_Some _ _ _ Hs) in Hx. set_solver.
    + rewrite bucket_addToMapToSet, decide_True by done.
      rewrite bucket_deleteFromMapToSet, decide_True by done.
      apply set_eq. intros y.
      rewrite elem_of_union, elem_of_difference, elem_of_singleton.
      destruct (decide (y = x)) as [->|]; naive_solver.
  - by rewrite addToMapToSet_other, deleteFromMapToSet_other.
Qed.

Lemma deleteFromMapToSet_flag m k x :
  (deleteFromMapToSet m k x).2 = true ↔ (deleteFromMapToSet m k x).1 !! k = None.
Proof.
  unfold deleteFromMapToSet. destruct (m !! k) as [s0|] eqn:Hk; simpl; [|done].
  destruct (_ =? 0); simpl.
  - by rewrite lookup_delete_eq.
  - by rewrite lookup_insert_eq.
Qed.

(** X1. [deleteFromMapToSet] touches one key only, leaves under it the
    old set without the element, and its flag is [true] exactly when
    that key is absent from the map it returns. *)
Theorem deleteFromMapToSet_result m k x :
  (∀ k', k' ≠ k → (deleteFromMapToSet m k x).1 !! k' = m !! k')
  ∧ bucket (deleteFromMapToSet m k x).1 k = bucket m k ∖ {[x]}
  ∧ ((deleteFromMapToSet m k x).2 = true
     ↔ (deleteFromMapToSet m k x).1 !! k = None)
  ∧ (deleteFromMapToSet m k x).1 !! k ≠ Some ∅.
Proof.
  split_and!.
  - intros k'. apply deleteFromMapToSet_other.
  - by rewrite bucket_deleteFromMapToSet, decide_True.
  - apply deleteFromMapToSet_flag.
  - apply deleteFromMapToSet_nonempty.
Qed.

(** X2. Adding a handle that was not under the key and deleting it again
    gives the map back, provided the key was not bound to the empty set. *)
Theorem addToMapToSet_then_delete m k x :
  x ∉ bucket m k → m !! k ≠ Some ∅ →
  (deleteFromMapToSet (addToMapToSet m k x) k x).1 = m
  ∧ x ∈ bucket (addToMapToSet m k x) k.
Proof.
  intros Hx Hne. split; [by apply delete_add_id|].
  rewrite bucket_addToMapToSet, decide_True by done. set_solver.
Qed.

(** X3. Deleting a handle that was under the key and adding it again
    gives the map back. *)
Theorem deleteFromMapToSet_then_add m k x :
  x ∈ bucket m k →
  addToMapToSet (deleteFromMapToSet m k x).1 k x = m
  ∧ x ∉ bucket (deleteFromMapToSet m k x).1 k.
Proof.
  intros Hx. split; [by apply add_delete_id|].
  rewrite bucket_deleteFromMapToSet, decide_True by done. set_solver.
Qed.
End MapToSetRoundTrips.

Lemma addToMapToSet_then_delete_witness :
  (deleteFromMapToSet (addToMapToSet (entries inst_h1_held) (eh_e h3) h3)
     (eh_e h3) h3).1 = entries inst_h1_held
  ∧ h3 ∈ bucket (addToMapToSet (entries inst_h1_held) (eh_e h3) h3) (eh_e h3).
Proof.
  apply (addToMapToSet_then_delete (entries inst_h1_held) (eh_e h3) h3);
    compute_done.
Defined.

Lemma deleteFromMapToSet_then_add_witness :
  addToMapToSet (deleteFromMapToSet (entries inst_h1_held) (eh_e h1) h1).1
    (eh_e h1) h1 = entries inst_h1_held
  ∧ h1 ∉ bucket (deleteFromMapToSet (entries inst_h1_held) (eh_e h1) h1).1 (eh_e h1).
Proof.
  apply (deleteFromMapToSet_then_add (entries inst_h1_held) (eh_e h1) h1).
  compute_done.
Defined.

(** ** Registration undone, and the net effect of [Wait] *)

Lemma waitCleanup_addWaiter_id eh i :
  RegInv i → eh ∉ waiters i → waitCleanup eh (addWaiter eh i) = i.
Proof.
  intros Hreg Hw. rewrite waitCleanup_eq, addWaiter_eq. simpl.
  rewrite !delete_add_id.
  - assert ((waiters i ∪ {[eh]}) ∖ {[eh]} = waiters i) as -> by set_solver.
    by destruct i.
  - by rewrite <- (inv_byEntry_waiters _ Hreg).
  - apply (inv_byEntry_noEmpty _ Hreg).
  - by rewrite <- (inv_byReason_waiters _ Hreg).
  - apply (inv_byReason_noEmpty _ Hreg).
  - by rewrite <- (inv_byPriority_waiters _ Hreg).
  - apply (inv_byPriority_noEmpty _ Hreg).
Qed.

Lemma waitCleanup_set_entries eh es i :
  waitCleanup eh (set_entries es i) = set_entries es (waitCleanup eh i).
Proof. done. Qed.

Lemma fresh_not_waiting σ eh :
  SysInv σ → calls σ !! eh = None → eh ∉ waiters (inst σ).
Proof.
  intros Hinv Hc. rewrite (inv_waiting _ Hinv). intros (c & Hc' & _). congruence.
Qed.

Lemma fresh_not_holder σ eh :
  SysInv σ → calls σ !! eh = None → ∀ k, eh ∉ bucket (entries (inst σ)) k.
Proof.
  intros Hinv Hc k Hin. destruct (inv_held _ Hinv eh k Hin) as (c & Hc' & _).
  congruence.
Qed.

(** The state [Wait] leaves behind when it returns, from a reachable
    state in which the address of its handle is fresh. *)
Lemma Wait_returns_state σ addr now d e r p res i' :
  reachable σ →
  (∀ h, h ∈ dom (calls σ) → eh_addr h ≠ addr) →
  Wait addr now d e r p (inst σ) = WaitReturns res i' →
  (res = None ∧ d = true ∧ i' = inst σ)
  ∨ (res = Some (newEntryHandle addr e r p now)
     ∧ i' = set_entries (addToMapToSet (entries (inst σ)) e
                           (newEntryHandle addr e r p now)) (inst σ)).
Proof.
  intros Hreach Hfresh. apply reachable_SysInv in Hreach as Hinv.
  unfold Wait. set (eh := newEntryHandle addr e r p now).
  assert (calls σ !! eh = None) as Hc by by apply fresh_not_called.
  pose proof (fresh_not_waiting _ _ Hinv Hc) as Hw.
  destruct (Atomically (waitTx eh d) (addWaiter eh (inst σ)))
    as [[success|] i2| |msg] eqn:Htx; try done.
  intros [= <- <-].
  apply waitTx_committed in Htx as [[[= ->] ->]|([= ->] & -> & -> & _)].
  - right. split; [done|].
    rewrite waitCleanup_set_entries, waitCleanup_addWaiter_id; [done|apply Hinv|done].
  - left. split_and!; [done|done|].
    by rewrite waitCleanup_addWaiter_id; [|apply Hinv|].
Qed.

(** X4. Registering a handle and deregistering it again gives the
    instance back: in a reachable state, for a handle that is not
    registered, the deregistering transaction undoes [addWaiter]. *)
Theorem deregister_undoes_register σ eh :
  reachable σ →
  eh ∉ waiters (inst σ) →
  waitCleanup eh (addWaiter eh (inst σ)) = inst σ.
Proof.
  intros Hreach Hw. apply waitCleanup_addWaiter_id; [|done].
  by apply reachable_SysInv.
Qed.

Lemma deregister_undoes_register_witness :
  waitCleanup h2 (addWaiter h2 (inst sys_h1_pending)) = inst sys_h1_pending.
Proof.
  apply (deregister_undoes_register sys_h1_pending h2 reachable_h1_pending).
  compute_done.
Defined.

(** X5. A run of [Wait] that returns nil leaves the instance exactly as
    it found it, and its context had completed; a run that returns a
    handle returns the one it built and changes the entries table only,
    by adding that handle under its entry. *)
Theorem Wait_net_effect σ addr now d e r p res i' :
  reachable σ →
  (∀ h, h ∈ dom (calls σ) → eh_addr h ≠ addr) →
  Wait addr now d e r p (inst σ) = WaitReturns res i' →
  match res with
  | None => d = true ∧ i' = inst σ
  | Some h =>
      h = newEntryHandle addr e r p now
      ∧ i' = set_entries (addToMapToSet (entries (inst σ)) e h) (inst σ)
      ∧ waiters i' = waiters (inst σ)
      ∧ waitersByPriority i' = waitersByPriority (inst σ)
      ∧ waitersByReason i' = waitersByReason (inst σ)
      ∧ waitersByEntry i' = waitersByEntry (inst σ)
  end.
Proof.
  intros Hreach Hfresh Hrun.
  destruct (Wait_returns_state _ _ _ _ _ _ _ _ _ Hreach Hfresh Hrun)
    as [(-> & -> & ->)|[-> ->]]; [done|by split_and!].
Qed.

(** X6. A run of [Wait] that returns a handle, followed by the removal of
    that handle, gives the instance back. *)
Theorem Wait_then_remove σ addr now d e r p h i' :
  reachable σ →
  (∀ h', h' ∈ dom (calls σ) → eh_addr h' ≠ addr) →
  Wait addr now d e r p (inst σ) = WaitReturns (Some h) i' →
  remove h i' = inst σ.
Proof.
  intros Hreach Hfresh Hrun. apply reachable_SysInv in Hreach as Hinv.
  destruct (Wait_returns_state _ _ _ _ _ _ _ _ _ Hreach Hfresh Hrun)
    as [(? & _)|[[= ->] ->]]; [done|].
  set (eh := newEntryHandle addr e r p now).
  assert (calls σ !! eh = None) as Hc by by apply fresh_not_called.
  rewrite remove_eq. simpl.
  rewrite (delete_add_id (entries (inst σ)) e eh).
  - rewrite set_entries_twice. apply set_entries_id.
  - by apply fresh_not_holder.
  - apply (inv_entries_noEmpty _ (inv_reg _ Hinv)).
Qed.

Lemma Wait_initial_run :
  Wait 1 0 false (entry "1") "" 0 (inst initial)
  = WaitReturns (Some h1) (inst sys_h1_finished).
Proof.
  unfold Wait. cbv zeta.
  change (newEntryHandle 1 (entry "1") "" 0 0) with h1.
  change (addWaiter h1 (inst initial)) with (inst sys_h1_pending).
  by rewrite h1_pending_admitted.
Qed.

Lemma Wait_full_run :
  Wait 1 0 true (entry "1") "" 0 (inst sys_full)
  = WaitReturns None (inst sys_full_h1_finished).
Proof.
  unfold Wait. cbv zeta.
  change (newEntryHandle 1 (entry "1") "" 0 0) with h1.
  change (addWaiter h1 (inst sys_full)) with (inst sys_full_h1).
  by rewrite full_h1_cancelled.
Qed.

Lemma Wait_net_effect_witness :
  (true = true ∧ inst sys_full_h1_finished = inst sys_full)
  ∧ (h1 = newEntryHandle 1 (entry "1") "" 0 0
     ∧ inst sys_h1_finished
       = set_entries (addToMapToSet (entries (inst initial)) (entry "1") h1)
                     (inst initial)
     ∧ waiters (inst sys_h1_finished) = waiters (inst initial)
     ∧ waitersByPriority (inst sys_h1_finished) = waitersByPriority (inst initial)
     ∧ waitersByReason (inst sys_h1_finished) = waitersByReason (inst initial)
     ∧ waitersByEntry (inst sys_h1_finished) = waitersByEntry (inst initial)).
Proof.
  split.
  - exact (Wait_net_effect sys_full 1 0 true (entry "1") "" 0 None
             (inst sys_full_h1_finished) reachable_full (fresh_in_empty h1)
             Wait_full_run).
  - exact (Wait_net_effect initial 1 0 false (entry "1") "" 0 (Some h1)
             (inst sys_h1_finished) reach_initial (fresh_in_empty h1)
             Wait_initial_run).
Defined.

Lemma Wait_then_remove_witness :
  remove h1 (inst sys_h1_finished) = inst initial.
Proof.
  exact (Wait_then_remove initial 1 0 false (entry "1") "" 0 h1
           (inst sys_h1_finished) reach_initial (fresh_in_empty h1)
           Wait_initial_run).
Defined.

(** ** Who holds and who waits *)

Lemma grantedHold_initial : grantedHold initial.
Proof. intros h c Hc. simpl in Hc. by rewrite lookup_empty in Hc. Qed.

Lemma grantedHold_step σ σ' :
  SysInv σ → grantedHold σ → step σ σ' → grantedHold σ'.
Proof.
  intros Hinv Hold Hstep.
  destruct Hstep as [σ eh d Hfresh|σ eh c Hc|σ eh d b i' Hc Htx
                    |σ eh d b Hc|σ eh d at_pc Hc Hpc|σ max|σ|σ f];
    intros h c'; simpl.
  - apply fresh_not_called in Hfresh.
    destruct (decide (h = eh)) as [->|Hne].
    + rewrite lookup_insert_eq. by intros [= <-].
    + rewrite lookup_insert_ne by done. apply Hold.
  - destruct (decide (h = eh)) as [->|Hne].
    + rewrite lookup_insert_eq. intros [= <-] Hg. by apply (Hold eh c).
    + rewrite lookup_insert_ne by done. apply Hold.
  - apply waitTx_committed in Htx as [[[= ->] ->]|([= ->] & -> & -> & _)]; simpl.
    + rewrite bucket_addToMapToSet.
      destruct (decide (h = eh)) as [->|Hne].
      * intros _ _. rewrite decide_True by done. set_solver.
      * rewrite lookup_insert_ne by done. intros Hc' Hg.
        pose proof (Hold h c' Hc' Hg). case_decide as Hk; [|done].
        rewrite Hk. set_solver.
    + destruct (decide (h = eh)) as [->|Hne].
      * rewrite lookup_insert_eq. by intros [= <-].
      * rewrite lookup_insert_ne by done. apply Hold.
  - destruct (decide (h = eh)) as [->|Hne].
    + rewrite lookup_insert_eq. intros [= <-] Hg.
      apply (Hold eh _ Hc). by destruct b.
    + rewrite lookup_insert_ne by done. apply Hold.
  - destruct (decide (h = eh)) as [->|Hne].
    + rewrite lookup_insert_eq. by intros [= <-].
    + rewrite lookup_insert_ne by done. intros Hc' Hg.
      pose proof (Hold h c' Hc' Hg). rewrite bucket_deleteFromMapToSet.
      case_decide as Hk; [|done]. rewrite Hk. set_solver.
  - apply Hold.
  - apply Hold.
  - apply Hold.
Qed.

Lemma reachable_grantedHold σ : reachable σ → grantedHold σ.
Proof.
  induction 1 as [|σ σ' Hreach IH Hstep]; [apply grantedHold_initial|].
  apply (grantedHold_step σ); [by apply reachable_SysInv|done|done].
Qed.

(** X7. In every reachable state the holders in the entries table are
    exactly the handles that were granted and whose removal has not
    fired, each under its own entry: no other call evicts a holder, and
    nothing else gets into the table. *)
Theorem holders_are_the_granted σ h :
  reachable σ →
  (h ∈ bucket (entries (inst σ)) (eh_e h)
   ↔ ∃ c, calls σ !! h = Some c ∧ granted c)
  ∧ (∀ k, h ∈ bucket (entries (inst σ)) k → k = eh_e h).
Proof.
  intros Hreach. apply reachable_SysInv in Hreach as Hinv. split; [split|].
  - apply (inv_held _ Hinv).
  - intros (c & Hc & Hg). by apply (reachable_grantedHold σ Hreach h c).
  - intros k Hin. symmetry.
    by apply (inv_entries_keyed _ (inv_reg _ Hinv)).
Qed.

Lemma holders_are_the_granted_witness :
  (h1 ∈ bucket (entries (inst sys_h1_finished)) (eh_e h1)
   ↔ ∃ c, calls sys_h1_finished !! h1 = Some c ∧ granted c)
  ∧ (∀ k, h1 ∈ bucket (entries (inst sys_h1_finished)) k → k = eh_e h1).
Proof.
  exact (holders_are_the_granted sys_h1_finished h1 reachable_h1_finished).
Defined.

Lemma noEmpty_all_empty {K} `{Countable K} (m : gmap K entryHandleSet) :
  noEmpty m → (∀ k, bucket m k = ∅) → m = ∅.
Proof.
  intros Hne Hb. apply map_eq. intros k. rewrite lookup_empty.
  by apply noEmpty_bucket.
Qed.

(** X8. When no call of [Wait] is between its registration and its
    deregistration, the flat set is empty and the three keyed registries
    are empty maps: nothing is left behind. *)
Theorem idle_registries_are_empty σ :
  reachable σ →
  (∀ h c, calls σ !! h = Some c → ¬ registered c) →
  waiters (inst σ) = ∅
  ∧ waitersByPriority (inst σ) = ∅
  ∧ waitersByReason (inst σ) = ∅
  ∧ waitersByEntry (inst σ) = ∅.
Proof.
  intros Hreach Hidle. apply reachable_SysInv in Hreach as Hinv.
  pose proof (inv_reg _ Hinv) as Hreg.
  assert (∀ h, h ∉ waiters (inst σ)) as Hw.
  { intros h. rewrite (inv_waiting _ Hinv). intros (c & Hc & Hr).
    by apply (Hidle h c). }
  split_and!.
  - apply set_eq. intros h. split; [by intros ?%Hw|set_solver].
  - apply noEmpty_all_empty; [apply Hreg|]. intros k. apply set_eq. intros h.
    split; [|set_solver]. intros Hin. destruct (Hw h).
    apply (inv_byPriority_waiters _ Hreg).
    by rewrite (inv_byPriority_keyed _ Hreg k h Hin).
  - apply noEmpty_all_empty; [apply Hreg|]. intros k. apply set_eq. intros h.
    split; [|set_solver]. intros Hin. destruct (Hw h).
    apply (inv_byReason_waiters _ Hreg).
    by rewrite (inv_byReason_keyed _ Hreg k h Hin).
  - apply noEmpty_all_empty; [apply Hreg|]. intros k. apply set_eq. intros h.
    split; [|set_solver]. intros Hin. destruct (Hw h).
    apply (inv_byEntry_waiters _ Hreg).
    by rewrite (inv_byEntry_keyed _ Hreg k h Hin).
Qed.

Lemma h1_finished_idle :
  ∀ h c, calls sys_h1_finished !! h = Some c → ¬ registered c.
Proof.
  intros h c. unfold sys_h1_finished, sys_h1_decided, sys_h1_pending. simpl.
  rewrite !insert_insert_eq. destruct (decide (h = h1)) as [->|Hne].
  - rewrite lookup_insert_eq. intros [= <-] Hr. exact Hr.
  - rewrite lookup_insert_ne by done. by rewrite lookup_empty.
Qed.

Lemma idle_registries_are_empty_witness :
  waiters (inst sys_h1_finished) = ∅
  ∧ waitersByPriority (inst sys_h1_finished) = ∅
  ∧ waitersByReason (inst sys_h1_finished) = ∅
  ∧ waitersByEntry (inst sys_h1_finished) = ∅.
Proof.
  exact (idle_registries_are_empty sys_h1_finished reachable_h1_finished
           h1_finished_idle).
Defined.

Lemma Wait_new_entry_admits_witness :
  Atomically (waitTx h1 false) (inst sys_h1_pending) =
  Committed (Some true)
    (set_entries (<[eh_e h1 := {[h1]}]> (entries (inst sys_h1_pending)))
                 (inst sys_h1_pending)).
Proof.
  apply (Wait_new_entry_admits sys_h1_pending h1 false reachable_h1_pending
           h1_pending_call h1_pending_no_holder).
  - right. compute_done.
  - assert (waiters (inst sys_h1_pending) = {[h1]}) as -> by compute_done.
    intros h ->%elem_of_singleton. simpl. lia.
Defined.

Lemma Wait_nil_cancelled_witness :
  true = true ∧ ∀ k, h1 ∉ bucket (entries (inst sys_full_h1_finished)) k.
Proof.
  exact (Wait_nil_cancelled sys_full_h1_finished h1 true
           reachable_full_h1_finished full_h1_finished_call).
Defined.

(** ** The limit, and progress *)

Lemma size_deleteFromMapToSet_le {K} `{Countable K} (m : gmap K entryHandleSet) k x :
  (size (deleteFromMapToSet m k x).1 ≤ size m)%nat.
Proof.
  unfold deleteFromMapToSet. destruct (m !! k) as [s|] eqn:Hk; simpl; [|lia].
  destruct (Z.of_nat (size (s ∖ {[x]})) =? 0); simpl.
  - rewrite map_size_delete, Hk. lia.
  - rewrite map_size_insert, Hk. simpl. lia.
Qed.

Lemma withinLimit_step σ σ' :
  fixedCapacityStep σ σ' → withinLimit (inst σ) → withinLimit (inst σ').
Proof.
  intros (Hstep & Hmax & Hno) Hlim. unfold withinLimit in *.
  rewrite Hmax, Hno. intros Hfin. specialize (Hlim Hfin).
  destruct Hstep as [σ eh d Hfresh|σ eh c Hc|σ eh d b i' Hc Htx
                    |σ eh d b Hc|σ eh d at_pc Hc Hpc|σ max|σ|σ f];
    simpl in *; try done.
  - rewrite waitTx_eq in Htx.
    destruct (entries (inst σ) !! eh_e eh) as [s|] eqn:Hs.
    + injection Htx as <- <-. simpl.
      rewrite map_size_insert_Some by by eexists. done.
    + destruct (First (Iter (waitersByPriority (inst σ)))); [|done].
      destruct (_ && _) eqn:Hcond.
      * injection Htx as <- <-. simpl.
        rewrite addToMapToSet_new, map_size_insert_None by done.
        apply andb_true_iff in Hcond as [Hroom _]. rewrite Hfin in Hroom.
        simpl in Hroom. apply Z.ltb_lt in Hroom. lia.
      * destruct d; [|done]. by injection Htx as <- <-.
  - pose proof (size_deleteFromMapToSet_le (entries (inst σ)) (eh_e eh) eh). lia.
Qed.

(** X9. As long as the capacity variables are not changed, a table that
    is within a finite limit stays within it: no sequence of [Wait]
    calls, context completions and removals takes the number of occupied
    entries above [maxEntries]. *)
Theorem limit_is_respected σ σ' :
  rtc fixedCapacityStep σ σ' →
  withinLimit (inst σ) →
  withinLimit (inst σ').
Proof.
  induction 1 as [σ|σ σ1 σ' Hstep _ IH]; [done|].
  intros Hlim. by apply IH, (withinLimit_step σ).
Qed.

Lemma limit_is_respected_witness :
  withinLimit (inst sys_h1_decided).
Proof.
  apply (limit_is_respected sys_h1_pending sys_h1_decided).
  - apply rtc_once. split_and!; [|reflexivity|reflexivity].
    apply (step_admission sys_h1_pending h1 false true (inst sys_h1_decided));
      [apply h1_pending_call|apply h1_pending_admitted].
  - intros _. compute_done.
Defined.

(** X10. With room in the table the waiting calls cannot be stuck: when
    some handle is registered, either a call whose admission has been
    decided can deregister, or a pending call of the top priority is
    admitted by its next transaction. *)
Theorem room_gives_progress σ :
  reachable σ →
  waiters (inst σ) ≠ ∅ →
  (noMaxEntries (inst σ) = true
   ∨ Z.of_nat (size (entries (inst σ))) < maxEntries (inst σ)) →
  ∃ eh σ',
    step σ σ'
    ∧ ((∃ d, calls σ !! eh = Some (mkCall Pending d)
             ∧ calls σ' !! eh = Some (mkCall (Decided true) d))
       ∨ (∃ d success, calls σ !! eh = Some (mkCall (Decided success) d)
                       ∧ calls σ' !! eh = Some (mkCall (Finished success) d))).
Proof.
  intros Hreach Hne Hroom. apply reachable_SysInv in Hreach as Hinv.
  pose proof (inv_reg _ Hinv) as Hreg.
  destruct (set_choose_L _ Hne) as [h0 Hh0].
  destruct (First (Iter (waitersByPriority (inst σ)))) as [top|] eqn:Hf; last first.
  { apply First_Iter_None in Hf.
    apply (inv_byPriority_waiters _ Hreg) in Hh0.
    unfold bucket in Hh0. rewrite Hf, lookup_empty in Hh0. set_solver. }
  destruct (First_Iter_Some _ _ Hf) as [[s Hs] _].
  destruct (set_choose_L s) as [h Hh].
  { intros ->. by apply (inv_byPriority_noEmpty _ Hreg top). }
  assert (h ∈ bucket (waitersByPriority (inst σ)) top) as Hb
    by by rewrite (bucket_Some _ _ _ Hs).
  pose proof (inv_byPriority_keyed _ Hreg _ _ Hb) as Hk.
  rewrite <- Hk in Hb. apply (inv_byPriority_waiters _ Hreg) in Hb.
  apply (inv_waiting _ Hinv) in Hb as ([[|b|b|] d] & Hc & Hr); try done.
  - assert (∃ i', Atomically (waitTx h d) (inst σ) = Committed (Some true) i')
      as [i' Htx].
    { rewrite waitTx_eq. destruct (entries (inst σ) !! eh_e h); [by eexists|].
      rewrite Hf.
      assert ((noMaxEntries (inst σ)
               || (Z.of_nat (size (entries (inst σ))) <? maxEntries (inst σ)))
              && (eh_priority h =? top) = true) as ->; [|by eexists].
      apply andb_true_iff. split; [|by apply Z.eqb_eq].
      apply orb_true_iff. destruct Hroom as [?|?%Z.ltb_lt]; auto. }
    exists h, (mkSystem i' (<[h := mkCall (Decided true) d]> (calls σ))).
    split; [by apply step_admission|].
    left. exists d. split; [done|]. apply lookup_insert_eq.
  - exists h, (mkSystem (waitCleanup h (inst σ))
                        (<[h := mkCall (Finished b) d]> (calls σ))).
    split; [by apply step_deregister|].
    right. exists d, b. split; [done|]. apply lookup_insert_eq.
Qed.

Lemma room_gives_progress_witness :
  ∃ eh σ',
    step sys_two_pending σ'
    ∧ ((∃ d, calls sys_two_pending !! eh = Some (mkCall Pending d)
             ∧ calls σ' !! eh = Some (mkCall (Decided true) d))
       ∨ (∃ d success,
            calls sys_two_pending !! eh = Some (mkCall (Decided success) d)
            ∧ calls σ' !! eh = Some (mkCall (Finished success) d))).
Proof.
  apply (room_gives_progress sys_two_pending reachable_two_pending).
  - assert (h1 ∈ waiters (inst sys_two_pending)) as Hin by compute_done.
    intros He. rewrite He in Hin. by apply not_elem_of_empty in Hin.
  - right. compute_done.
Defined.

(** ** The status figures add up *)

Section SumOfBuckets.
Context {K : Type} {EqK : EqDecision K} {CountK : Countable K}.
Variable key : EntryHandle -> K.

Lemma sum_bucket_sizes (m : gmap K entryHandleSet) :
  keyed key m →
  ∀ ws : entryHandleSet,
    (∀ h, h ∈ ws ↔ h ∈ bucket m (key h)) →
    sum_list_with (fun kv : K * entryHandleSet => size kv.2) (map_to_list m) = size ws.
Proof.
  induction m as [|i s m Hi IH] using map_ind; intros Hkeyed ws Hag.
  - rewrite map_to_list_empty. simpl.
    assert (ws = ∅) as ->; [|by rewrite size_empty].
    apply set_eq. intros h. rewrite Hag. unfold bucket. by rewrite lookup_empty.
  - rewrite map_to_list_insert by done. simpl.
    assert (∀ k, k ≠ i → bucket (<[i:=s]> m) k = bucket m k) as Hother.
    { intros k Hk. by rewrite bucket_insert, decide_False. }
    assert (bucket (<[i:=s]> m) i = s) as Hs
      by by rewrite bucket_insert, decide_True.
    assert (bucket m i = ∅) as Hmi by by apply bucket_None.
    assert (s ⊆ ws) as Hsub.
    { intros h Hh. apply Hag. rewrite <- Hs in Hh.
      by rewrite (Hkeyed i h Hh). }
    assert (keyed key m) as Hkm; last first.
    { rewrite (IH Hkm (ws ∖ s)).
      - assert (size ws = (size s + size (ws ∖ s))%nat) as ->; [|done].
        rewrite <- (size_union s (ws ∖ s)) by set_solver.
        f_equal. by apply union_difference_L.
      - intros h. rewrite elem_of_difference, Hag.
        destruct (decide (key h = i)) as [Hk|Hk].
        + rewrite Hk, Hs, Hmi. set_solver.
        + rewrite Hother by done. split; [by intros [? _]|].
          intros Hh. split; [done|]. intros Hin. apply Hk.
          apply Hkeyed. by rewrite Hs. }
    intros k h Hh. destruct (decide (k = i)) as [->|Hk].
    + rewrite Hmi in Hh. set_solver.
    + apply Hkeyed. by rewrite Hother.
Qed.
End SumOfBuckets.

Lemma sumZ_sizes {K} (l : list (K * entryHandleSet)) :
  sumZ ((fun rws => (Z.of_nat (size rws.2), rws.1)) <$> l).*1
  = Z.of_nat (sum_list_with (fun kv : K * entryHandleSet => size kv.2) l).
Proof.
  induction l as [|kv l IH]; [done|].
  rewrite !fmap_cons. unfold sumZ in *. cbn [foldr]. rewrite IH. simpl. lia.
Qed.

Lemma length_handle_rows (l : list (Entry * entryHandleSet)) :
  length (ehs ← l;
          (fun h => (Protocol ehs.1, LocalAddr ehs.1, RemoteAddr ehs.1, eh_reason h))
            <$> elements ehs.2)
  = sum_list_with (fun kv : Entry * entryHandleSet => size kv.2) l.
Proof.
  induction l as [|kv l IH]; [done|].
  rewrite bind_cons, length_app, length_fmap, IH. done.
Qed.

Lemma sum_at_least_length {K} (l : list (K * entryHandleSet)) :
  Forall (fun kv => kv.2 ≠ ∅) l →
  (length l ≤ sum_list_with (fun kv : K * entryHandleSet => size kv.2) l)%nat.
Proof.
  induction 1 as [|kv l Hne _ IH]; simpl; [done|].
  assert (size kv.2 ≠ 0%nat); [|lia].
  apply size_non_empty_iff. by intros ?%leibniz_equiv.
Qed.

(** X11. In every reachable state the figures [PrintStatus] reads agree
    with each other: the per-reason counts add up to the number of
    waiters, every reason row counts at least one waiter, no reason has
    two rows, and there are at least as many handle rows as occupied
    entries. *)
Theorem status_figures_add_up σ :
  reachable σ →
  sumZ (statusReasonRows (inst σ)).*1 = statusNumWaiters (inst σ)
  ∧ Forall (fun row => 1 <= row.1) (statusReasonRows (inst σ))
  ∧ NoDup (statusReasonRows (inst σ)).*2
  ∧ statusNumEntries (inst σ) <= Z.of_nat (length (statusHandleRows (inst σ))).
Proof.
  intros Hreach. apply reachable_SysInv in Hreach as [Hreg _ _ _].
  split_and!.
  - unfold statusReasonRows, statusNumWaiters. rewrite sumZ_sizes. f_equal.
    apply (sum_bucket_sizes eh_reason); [apply Hreg|].
    apply (inv_byReason_waiters _ Hreg).
  - unfold statusReasonRows. apply Forall_fmap, Forall_forall.
    intros [r ws] Hin%elem_of_map_to_list. simpl.
    assert (size ws ≠ 0%nat); [|lia].
    apply size_non_empty_iff. intros ->%leibniz_equiv.
    by apply (inv_byReason_noEmpty _ Hreg r).
  - unfold statusReasonRows. rewrite <- list_fmap_compose.
    apply (NoDup_fst_map_to_list (waitersByReason (inst σ))).
  - unfold statusNumEntries, statusHandleRows.
    rewrite length_handle_rows, <- length_map_to_list.
    apply inj_le, sum_at_least_length, Forall_forall.
    intros [e hs] Hin%elem_of_map_to_list. simpl. intros ->.
    by apply (inv_entries_noEmpty _ Hreg e).
Qed.

Lemma status_figures_add_up_witness :
  sumZ (statusReasonRows (inst sys_two_pending)).*1
    = statusNumWaiters (inst sys_two_pending)
  ∧ statusNumWaiters (inst sys_two_pending) = 2
  ∧ statusReasonRows (inst sys_two_pending) = [(2, "")]
  ∧ statusNumEntries (inst sys_h1_finished)
    <= Z.of_nat (length (statusHandleRows (inst sys_h1_finished))).
Proof.
  destruct (status_figures_add_up sys_two_pending reachable_two_pending)
    as (Hsum & _).
  destruct (status_figures_add_up sys_h1_finished reachable_h1_finished)
    as (_ & _ & _ & Hrows).
  split_and!; [exact Hsum|compute_done|compute_done|exact Hrows].
Defined.

(** ** The order of the by-priority map *)

Lemma elem_of_insertBy {A} (less : A -> A -> bool) k l x :
  x ∈ insertBy less k l ↔ x = k ∨ x ∈ l.
Proof.
  induction l as [|k' l IH]; simpl.
  - rewrite list_elem_of_singleton. split; [by left|].
    intros [?|Hx]; [done|]. by apply elem_of_nil in Hx.
  - destruct (less k k').
    + by rewrite elem_of_cons.
    + rewrite !elem_of_cons, IH. naive_solver.
Qed.

Lemma elem_of_sortBy {A} (less : A -> A -> bool) l x :
  x ∈ sortBy less l ↔ x ∈ l.
Proof.
  induction l as [|k l IH]; simpl; [done|].
  by rewrite elem_of_insertBy, elem_of_cons, IH.
Qed.

Lemma sorted_insertBy k (l : list priority) :
  StronglySorted Z.gt l → k ∉ l →
  StronglySorted Z.gt (insertBy priorityLess k l).
Proof.
  induction 1 as [|k' l Hsorted IH Hall]; intros Hk; simpl.
  - repeat constructor.
  - apply not_elem_of_cons in Hk as [Hne Hk].
    unfold priorityLess at 1. case_bool_decide as Hgt.
    + constructor; [by constructor|].
      constructor; [done|].
      eapply Forall_impl; [exact Hall|]. simpl. intros. lia.
    + constructor; [by apply IH|].
      apply Forall_forall. intros x [->|Hx]%elem_of_insertBy; [lia|].
      by apply (proj1 (Forall_forall _ _) Hall).
Qed.

Lemma sorted_sortBy (l : list priority) :
  NoDup l → StronglySorted Z.gt (sortBy priorityLess l).
Proof.
  induction 1 as [|k l Hk _ IH]; simpl; [constructor|].
  apply sorted_insertBy; [done|]. by rewrite elem_of_sortBy.
Qed.

(** X12. With the comparator of [NewInstance] the by-priority map is
    iterated from the highest priority down: the iteration is strictly
    descending, lists exactly the keys of the map, and its first element,
    when there is one, is the greatest key. *)
Theorem waitersByPriority_descending (m : gmap priority entryHandleSet) :
  StronglySorted Z.gt (Iter m)
  ∧ (∀ k, k ∈ Iter m ↔ is_Some (m !! k))
  ∧ (First (Iter m) = None ↔ m = ∅)
  ∧ (∀ top, First (Iter m) = Some top →
            is_Some (m !! top) ∧ ∀ k, is_Some (m !! k) → k <= top).
Proof.
  split_and!.
  - apply sorted_sortBy, NoDup_elements.
  - intros k. unfold Iter. by rewrite elem_of_sortBy, elem_of_elements, elem_of_dom.
  - apply First_Iter_None.
  - apply First_Iter_Some.
Qed.

(** ** Between admission and deregistration *)

Lemma two_pending_h2_call : calls sys_two_pending !! h2 = Some (mkCall Pending false).
Proof. apply lookup_insert_eq. Qed.

Lemma two_pending_h2_admitted :
  Atomically (waitTx h2 false) (inst sys_two_pending)
  = Committed (Some true) (inst sys_two_h2_decided).
Proof.
  apply (waitTx_admits_new (inst sys_two_pending) h2 false 5);
    [apply lookup_empty|compute_done|compute_done].
Qed.

Lemma reachable_two_h2_decided : reachable sys_two_h2_decided.
Proof.
  apply (reach_step sys_two_pending); [apply reachable_two_pending|].
  apply (step_admission sys_two_pending h2 false true (inst sys_two_h2_decided));
    [apply two_pending_h2_call|apply two_pending_h2_admitted].
Qed.

Lemma two_h2_decided_calls :
  calls sys_two_h2_decided !! h2 = Some (mkCall (Decided true) false)
  ∧ calls sys_two_h2_decided !! h1 = Some (mkCall Pending false).
Proof.
  split; [apply lookup_insert_eq|].
  unfold sys_two_h2_decided. simpl.
  rewrite !lookup_insert_ne by done. apply lookup_insert_eq.
Qed.

(** X13. Admission and deregistration are two transactions: between
    them the granted handle is a holder of its entry and still a
    registered waiter, and while it is registered no pending call of
    strictly lower priority is admitted to a new entry. *)
Theorem decided_handle_still_waits σ eh d eh' d' :
  reachable σ →
  calls σ !! eh = Some (mkCall (Decided true) d) →
  calls σ !! eh' = Some (mkCall Pending d') →
  entries (inst σ) !! eh_e eh' = None →
  eh_priority eh' < eh_priority eh →
  eh ∈ waiters (inst σ)
  ∧ eh ∈ bucket (entries (inst σ)) (eh_e eh)
  ∧ ∀ i', Atomically (waitTx eh' d') (inst σ) ≠ Committed (Some true) i'.
Proof.
  intros Hreach Hc Hc' Hnone Hlt. apply reachable_SysInv in Hreach as Hinv.
  assert (eh ∈ waiters (inst σ)) as Hw.
  { apply (inv_waiting _ Hinv). by eexists. }
  split_and!; [done| |].
  - by apply (reachable_grantedHold σ Hreach eh _ Hc).
  - intros i'. rewrite waitTx_eq, Hnone.
    destruct (First (Iter (waitersByPriority (inst σ)))) as [top|] eqn:Hf; [|done].
    pose proof (waiters_below_top _ _ (inv_reg _ Hinv) Hf eh Hw) as Hle.
    assert ((eh_priority eh' =? top) = false) as -> by (apply Z.eqb_neq; lia).
    rewrite andb_false_r. by destruct d'.
Qed.

Lemma decided_handle_still_waits_witness :
  h2 ∈ waiters (inst sys_two_h2_decided)
  ∧ h2 ∈ bucket (entries (inst sys_two_h2_decided)) (eh_e h2)
  ∧ ∀ i', Atomically (waitTx h1 false) (inst sys_two_h2_decided)
          ≠ Committed (Some true) i'.
Proof.
  destruct two_h2_decided_calls as [Hc2 Hc1].
  apply (decided_handle_still_waits sys_two_h2_decided h2 false h1 false
           reachable_two_h2_decided Hc2 Hc1).
  - compute_done.
  - simpl. lia.
Defined.

(** ** What a removal frees *)

(** X14. In a reachable state [remove] frees an entry exactly when the
    handle is the last holder of its entry: then the key goes and the
    table is one entry shorter; otherwise the table keeps its length and
    every other holder of the entry stays. The registries and the
    capacity variables are not touched. *)
Theorem remove_frees_last_holder σ eh :
  reachable σ →
  (bucket (entries (inst σ)) (eh_e eh) = {[eh]} →
   entries (remove eh (inst σ)) !! eh_e eh = None
   ∧ S (size (entries (remove eh (inst σ)))) = size (entries (inst σ)))
  ∧ (bucket (entries (inst σ)) (eh_e eh) ≠ {[eh]} →
     size (entries (remove eh (inst σ))) = size (entries (inst σ)))
  ∧ (∀ e h, h ≠ eh →
            (h ∈ bucket (entries (remove eh (inst σ))) e
             ↔ h ∈ bucket (entries (inst σ)) e))
  ∧ waiters (remove eh (inst σ)) = waiters (inst σ)
  ∧ maxEntries (remove eh (inst σ)) = maxEntries (inst σ)
  ∧ noMaxEntries (remove eh (inst σ)) = noMaxEntries (inst σ).
Proof.
  intros Hreach. apply reachable_SysInv in Hreach as Hinv.
  pose proof (inv_entries_noEmpty _ (inv_reg _ Hinv)) as Hne.
  split_and!; try done.
  - intros Hb. rewrite remove_eq. simpl. unfold deleteFromMapToSet.
    destruct (entries (inst σ) !! eh_e eh) as [s|] eqn:Hs.
    + rewrite (bucket_Some _ _ _ Hs) in Hb. subst s.
      assert (({[eh]} : entryHandleSet) ∖ {[eh]} = ∅) as -> by set_solver.
      rewrite size_empty. simpl. rewrite lookup_delete_eq, map_size_delete, Hs.
      split; [done|]. simpl.
      assert (size (entries (inst σ)) ≠ 0%nat); [|lia].
      apply map_size_non_empty_iff. intros He. by rewrite He, lookup_empty in Hs.
    + rewrite (bucket_None _ _ Hs) in Hb. set_solver.
  - intros Hb. rewrite remove_eq. simpl. unfold deleteFromMapToSet.
    destruct (entries (inst σ) !! eh_e eh) as [s|] eqn:Hs; [|done].
    rewrite (bucket_Some _ _ _ Hs) in Hb.
    destruct (Z.of_nat (size (s ∖ {[eh]})) =? 0) eqn:Hz; simpl.
    + apply size_zero_empty in Hz. destruct Hb.
      apply set_eq. intros h. rewrite elem_of_singleton. split.
      * intros Hh. destruct (decide (h = eh)); [done|].
        assert (h ∈ s ∖ {[eh]}) as Hin by set_solver.
        rewrite Hz in Hin. set_solver.
      * intros ->. destruct (set_choose_L s) as [h Hh].
        { intros ->. by apply (Hne (eh_e eh)). }
        destruct (decide (h = eh)) as [<-|]; [done|].
        assert (h ∈ s ∖ {[eh]}) as Hin by set_solver.
        rewrite Hz in Hin. set_solver.
    + rewrite map_size_insert, Hs. done.
  - intros e h Hh. rewrite remove_eq. simpl.
    rewrite bucket_deleteFromMapToSet. case_decide as Hk; [|done].
    subst e. set_solver.
Qed.

Lemma remove_frees_last_holder_witness :
  (entries (remove h1 (inst sys_h1_finished)) !! eh_e h1 = None
   ∧ S (size (entries (remove h1 (inst sys_h1_finished))))
     = size (entries (inst sys_h1_finished)))
  ∧ size (entries (remove h3 (inst sys_h1_finished)))
    = size (entries (inst sys_h1_finished)).
Proof.
  destruct (remove_frees_last_holder sys_h1_finished h1 reachable_h1_finished)
    as (Hlast & _).
  destruct (remove_frees_last_holder sys_h1_finished h3 reachable_h1_finished)
    as (_ & Hother & _).
  split; [apply Hlast|apply Hother]; compute_done.
Defined.

Lemma h1_removed_call : calls sys_h1_removed !! h1 = Some (mkCall Removed false).
Proof. apply lookup_insert_eq. Qed.

Lemma removal_after_first_is_noop_witness :
  remove h1 (inst sys_h1_removed) = inst sys_h1_removed.
Proof.
  exact (removal_after_first_is_noop sys_h1_removed h1 false
           reachable_h1_removed h1_removed_call).
Defined.

(** * The index of the file cache *)

Section FileCacheIndex.
Import FileCache.
Context {P : Type} {HP : Policy P}.
Implicit Types (me : Cache P) (m : gmap key ItemInfo).

Lemma int64_add_l a b : int64 (int64 a + b) = int64 (a + b).
Proof.
  unfold int64.
  replace ((a + 2 ^ 63) mod 2 ^ 64 - 2 ^ 63 + b + 2 ^ 63)
    with ((a + 2 ^ 63) mod 2 ^ 64 + b) by lia.
  rewrite Zplus_mod_idemp_l. f_equal. f_equal. lia.
Qed.



Lemma sumSizes_insert m k v :
  m !! k = None → sumSizes (<[k := v]> m) = Size v + sumSizes m.
Proof.
  intros Hk. unfold sumSizes.
  rewrite map_fold_insert_L; [done| |done]. intros. lia.
Qed.

Lemma sumSizes_delete m k v :
  m !! k = Some v → sumSizes m = Size v + sumSizes (delete k m).
Proof.
  intros Hk. rewrite <- (insert_id m k v Hk) at 1.
  rewrite <- insert_delete_eq. apply sumSizes_insert, lookup_delete_eq.
Qed.

Lemma removeInfo_absent path me :
  paths me !! path = None → removeInfo path me = (zeroItemInfo, false, me).
Proof. unfold removeInfo. by intros ->. Qed.

Lemma removeInfo_paths path me :
  paths (removeInfo path me).2 = delete path (paths me).
Proof.
  unfold removeInfo. destruct (paths me !! path) eqn:Hp; simpl; [done|].
  by rewrite delete_id.
Qed.

Lemma removeInfo_capacity path me :
  capacity (removeInfo path me).2 = capacity me.
Proof. unfold removeInfo. by destruct (paths me !! path). Qed.

Lemma accounted_removeInfo path me :
  accounted me → accounted (removeInfo path me).2.
Proof.
  unfold accounted, removeInfo. intros Hacc.
  destruct (paths me !! path) as [ret|] eqn:Hp; simpl; [|done].
  rewrite Hacc, (sumSizes_delete _ _ _ Hp).
  replace (int64 (Size ret + sumSizes (delete path (paths me))) - Size ret)
    with (int64 (Size ret + sumSizes (delete path (paths me))) + - Size ret) by lia.
  rewrite int64_add_l. f_equal. lia.
Qed.

Lemma accounted_put k v sz c (p : P) r me :
  accounted me → paths me !! k = None → Size v = sz →
  accounted (mkCache c (int64 (filled me + sz)) p (<[k := v]> (paths me)) r).
Proof.
  unfold accounted. simpl. intros Hacc Hk <-.
  rewrite Hacc, int64_add_l, sumSizes_insert by done. f_equal. lia.
Qed.

Lemma accounted_statItem maxTime st path access me me' :
  accounted me → statItem maxTime st path access me = Done me' → accounted me'.
Proof.
  intros Hacc. unfold statItem.
  pose proof (accounted_removeInfo path me Hacc) as Hacc1.
  pose proof (removeInfo_paths path me) as Hp1.
  destruct (removeInfo path me) as [[info ok] me1]. simpl in *.
  destruct st as [|err|fi]; [by intros [= <-]|done|].
  intros [= <-]. apply accounted_put; [done| |done].
  rewrite Hp1. apply lookup_delete_eq.
Qed.

Lemma accounted_openFileUpdate maxTime st k accessed me me' :
  accounted me → openFileUpdate maxTime st k accessed me = Done me' →
  accounted me'.
Proof.
  intros Hacc. unfold openFileUpdate.
  pose proof (accounted_removeInfo k me Hacc) as Hacc1.
  pose proof (removeInfo_paths k me) as Hp1.
  destruct (removeInfo k me) as [[info ok] me1]. simpl in *.
  destruct ok; simpl.
  - intros [= <-]. apply accounted_put; [done| |done].
    rewrite Hp1. apply lookup_delete_eq.
  - by apply accounted_statItem.
Qed.

Lemma accounted_trimLoop fuel me me' :
  accounted me → trimLoop fuel me = Some me' → accounted me'.
Proof.
  revert me. induction fuel as [|n IH]; intros me Hacc; simpl.
  - destruct (filled me >? capacity me); [done|]. by intros [= <-].
  - destruct (filled me >? capacity me); [|by intros [= <-]].
    apply IH. by apply accounted_removeInfo.
Qed.

Lemma trimLoop_result fuel me me' :
  trimLoop fuel me = Some me' →
  capacity me' = capacity me
  ∧ filled me' <= capacity me
  ∧ paths me' ⊆ paths me.
Proof.
  revert me. induction fuel as [|n IH]; intros me; simpl.
  - destruct (filled me >? capacity me) eqn:Hgt; [done|].
    intros [= <-]. rewrite Z.gtb_ltb in Hgt. apply Z.ltb_ge in Hgt. done.
  - destruct (filled me >? capacity me) eqn:Hgt.
    + intros Hrun. destruct (IH _ Hrun) as (Hc & Hf & Hp).
      unfold remove in *. rewrite removeInfo_capacity in Hc, Hf.
      rewrite removeInfo_paths in Hp. split_and!; [done|done|].
      etrans; [exact Hp|]. apply delete_subseteq.
    + intros [= <-]. rewrite Z.gtb_ltb in Hgt. apply Z.ltb_ge in Hgt. done.
Qed.
Lemma int64_idem z : int64 (int64 z) = int64 z.
Proof.
  replace (int64 z) with (int64 z + 0) at 1 by lia.
  rewrite int64_add_l. f_equal. lia.
Qed.

(** X18. The index keeps its books: if [filled] is the sum of the sizes
    of the items (as an [int64]), it still is after [removeInfo],
    [remove], [statItem], the updates that end [OpenFile] and [Rename],
    [trimToCapacity] and [SetCapacity]; [Info] then reports that sum. *)
Theorem filecache_accounting maxTime st path from access me :
  accounted me →
  accounted (removeInfo path me).2
  ∧ accounted (remove path me)
  ∧ (∀ me', statItem maxTime st path access me = Done me' → accounted me')
  ∧ (∀ me', openFileUpdate maxTime st path access me = Done me' → accounted me')
  ∧ (∀ me', renameUpdate maxTime st from path access me = Done me' → accounted me')
  ∧ (∀ fuel me', trimToCapacity fuel me = Some me' → accounted me')
  ∧ (∀ c, accounted (SetCapacity c me))
  ∧ Filled (Info me) = int64 (sumSizes (paths me)).
Proof.
  intros Hacc. split_and!; try done.
  - by apply accounted_removeInfo.
  - by apply accounted_removeInfo.
  - intros me'. by apply accounted_statItem.
  - intros me'. by apply accounted_openFileUpdate.
  - intros me'. unfold renameUpdate. apply accounted_statItem.
    by apply accounted_removeInfo.
  - intros fuel me'. unfold trimToCapacity.
    destruct (capacity me <? 0); [by intros [= <-]|].
    by apply accounted_trimLoop.
Qed.

(** X19. When [trimToCapacity] returns, the capacity is as before and
    only items have gone; under a negative capacity, or with [filled]
    within the capacity, nothing is touched; under a capacity that is
    not negative, [filled] ends within it. *)
Theorem filecache_trim_result fuel me me' :
  trimToCapacity fuel me = Some me' →
  capacity me' = capacity me
  ∧ paths me' ⊆ paths me
  ∧ (capacity me < 0 → me' = me)
  ∧ (filled me <= capacity me → me' = me)
  ∧ (0 <= capacity me → filled me' <= capacity me).
Proof.
  unfold trimToCapacity. destruct (capacity me <? 0) eqn:Hneg.
  - intros [= <-]. apply Z.ltb_lt in Hneg. split_and!; try done. lia.
  - intros Hrun. apply Z.ltb_ge in Hneg.
    destruct (trimLoop_result _ _ _ Hrun) as (Hc & Hf & Hp).
    split_and!; try done; [lia|].
    intros Hle. destruct fuel; simpl in Hrun.
    + destruct (filled me >? capacity me) eqn:Hgt; [done|]. by injection Hrun.
    + destruct (filled me >? capacity me) eqn:Hgt; [|by injection Hrun].
      apply Z.gtb_lt in Hgt. lia.
Qed.



(** X21. Opening a file that is in the index changes its access time
    and nothing else: [os.Stat] is not consulted, the item keeps its
    size and path, the other items stay, and [Info] reports what it
    reported before. *)
Theorem filecache_open_cached maxTime st k accessed old me :
  accounted me →
  paths me !! k = Some old →
  ∃ me',
    openFileUpdate maxTime st k accessed me = Done me'
    ∧ paths me' = <[k := mkItemInfo accessed (Size old) (Path old)]> (paths me)
    ∧ Info me' = Info me.
Proof.
  intros Hacc Hk. unfold openFileUpdate, removeInfo. rewrite Hk. simpl.
  eexists. split; [done|]. simpl. rewrite insert_delete_eq.
  split; [done|]. unfold Info. simpl. f_equal.
  - rewrite int64_add_l.
    replace (filled me - Size old + Size old) with (filled me) by lia.
    rewrite Hacc. apply int64_idem.
  - rewrite map_size_insert_Some by by eexists. done.
Qed.

(** X22. [statItem] drops from the index a file that is no longer
    there, panics on another error of [os.Stat], and otherwise files the
    item with the size [os.Stat] reports; the access time is the one
    given, or, when that is zero, the one the index had, or, when that
    is zero or missing too, the later of the file's two times. Other
    items and the capacity are as before. *)
Theorem filecache_statItem_result maxTime fi err path access me :
  statItem maxTime NotExist path access me = Done (remove path me)
  ∧ paths (remove path me) = delete path (paths me)
  ∧ statItem maxTime (StatError err) path access me = Panics err
  ∧ ∃ me' info,
      statItem maxTime (Stat fi) path access me = Done me'
      ∧ paths me' = <[path := info]> (paths me)
      ∧ capacity me' = capacity me
      ∧ Size info = fi_Size fi
      ∧ Path info = match paths me !! path with
                    | Some old => Path old
                    | None => path
                    end
      ∧ Accessed info =
        if IsZero access then
          match paths me !! path with
          | Some old =>
              if IsZero (Accessed old)
              then maxTime (fi_AccessTime fi) (fi_ModTime fi)
              else Accessed old
          | None => maxTime (fi_AccessTime fi) (fi_ModTime fi)
          end
        else access.
Proof.
  split_and!.
  - unfold statItem, remove. by destruct (removeInfo path me) as [[??]?].
  - apply removeInfo_paths.
  - unfold statItem. by destruct (removeInfo path me) as [[??]?].
  - unfold statItem, removeInfo.
    destruct (paths me !! path) as [old|] eqn:Hp; simpl.
    + destruct (IsZero access) eqn:Ha; simpl; rewrite ?Ha; simpl;
        destruct (IsZero (Accessed old)) eqn:Ho; simpl; rewrite ?Ho;
        (eexists _, _; split; [done|]; simpl; rewrite insert_delete_eq;
         by split_and!).
    + destruct (IsZero access) eqn:Ha; simpl; rewrite ?Ha;
        (eexists _, _; split; [done|]; by split_and!).
Qed.
End FileCacheIndex.

Lemma twoFiles_accounted : FileCache.accounted FileCache.twoFiles.
Proof. unfold FileCache.accounted. compute_done. Qed.


Lemma filecache_accounting_witness :
  FileCache.accounted (FileCache.remove "a" FileCache.twoFiles)
  ∧ (∀ me', FileCache.statItem Z.max (FileCache.Stat (FileCache.mkFileInfo 7 5 6))
              "a" 0 FileCache.twoFiles = FileCache.Done me' →
            FileCache.accounted me')
  ∧ FileCache.Filled (FileCache.Info FileCache.twoFiles) = 30.
Proof.
  destruct (filecache_accounting Z.max (FileCache.Stat (FileCache.mkFileInfo 7 5 6))
              "a" "b" 0 FileCache.twoFiles twoFiles_accounted)
    as (_ & Hrem & Hstat & _).
  split_and!; [exact Hrem|exact Hstat|reflexivity].
Defined.

Lemma twoFiles_trimmed :
  FileCache.trimToCapacity 1 FileCache.twoFiles
  = Some (FileCache.remove "a" FileCache.twoFiles).
Proof. reflexivity. Qed.

Lemma filecache_trim_result_witness :
  FileCache.capacity (FileCache.remove "a" FileCache.twoFiles) = 25
  ∧ FileCache.paths (FileCache.remove "a" FileCache.twoFiles)
    ⊆ FileCache.paths FileCache.twoFiles
  ∧ FileCache.filled (FileCache.remove "a" FileCache.twoFiles) <= 25.
Proof.
  destruct (filecache_trim_result 1 FileCache.twoFiles _ twoFiles_trimmed)
    as (Hc & Hp & _ & _ & Hf).
  split_and!; [exact Hc|exact Hp|apply Hf; simpl; lia].
Defined.


Lemma filecache_open_cached_witness :
  ∃ me',
    FileCache.openFileUpdate Z.max FileCache.NotExist "a" 9 FileCache.twoFiles
    = FileCache.Done me'
    ∧ FileCache.paths me'
      = <["a" := FileCache.mkItemInfo 9 10 "a"]> (FileCache.paths FileCache.twoFiles)
    ∧ FileCache.Info me' = FileCache.Info FileCache.twoFiles.
Proof.
  apply (filecache_open_cached Z.max FileCache.NotExist "a" 9
           (FileCache.mkItemInfo 1 10 "a") FileCache.twoFiles twoFiles_accounted).
  compute_done.
Defined.
